(** * Regex find/replace plugin (src/main.ts): a shallow embedding

    The plugin is a thin layer over the JavaScript runtime: [RegExp],
    [String.prototype.match], [String.prototype.replace],
    [String.prototype.split], [Array.prototype.join] and the editor of the
    host application.  The first part of this file models those runtime
    operations after ECMA-262; the second part translates the plugin's own
    functions ([applyExpression], [applyBatch], [applyGroup], the
    [updatePreview] closure and the "Replace All" handler of
    [FindAndReplaceModal.onOpen]); the theorems come last. *)

From Stdlib Require Import String Ascii List Sorted Arith PeanoNat Bool ZArith Lia.
Import ListNotations.

Local Open Scope list_scope.
Local Open Scope nat_scope.

(** ** Strings

    A JavaScript string is a sequence of code units; the model uses
    [string], whose code units are 8 bits wide. *)

Notation "s +++ t" := (String.append s t) (at level 60, right associativity).

Definition LF : ascii := Ascii.ascii_of_nat 10.
Definition TAB : ascii := Ascii.ascii_of_nat 9.
Definition CR : ascii := Ascii.ascii_of_nat 13.
Definition BACKSLASH : ascii := Ascii.ascii_of_nat 92.
Definition DOLLAR : ascii := Ascii.ascii_of_nat 36.

(** [s.substring(i)] *)
Fixpoint drop (i : nat) (s : string) : string :=
  match i, s with
  | O, _ => s
  | S _, EmptyString => EmptyString
  | S i', String _ s' => drop i' s'
  end.

(** [s.substring(i, j)] for [i <= j] *)
Definition slice (i j : nat) (s : string) : string := String.substring i (j - i) s.

(** [s.includes(c)] for a single code unit [c] *)
Fixpoint has_char (c : ascii) (s : string) : bool :=
  match s with
  | EmptyString => false
  | String d s' => Ascii.eqb c d || has_char c s'
  end.

(** ** Regular expression objects

    ECMA-262 compiles a pattern into a matcher: a procedure that, given the
    input and a start index, either fails or returns the end index of the
    match that starts there together with the captures.  The matcher is the
    part of [RegExp] this model takes from the runtime; the search loop
    around it ([RegExpBuiltinExec]) and the string methods built on it are
    written out below.  The sticky and unicode flags are not modelled. *)

Definition Captures := list (option string).

(** [matcher input i = Some (len, caps)]: the pattern matches [len] code
    units of [input] from index [i]. *)
Definition Matcher := string -> nat -> option (nat * Captures).

Record RegExp : Type := mkRegExp {
  global : bool;
  matcher : Matcher
}.

(** The array [re.exec] returns: [m.index], [m[0]] and [m[1..]]. *)
Record MatchResult : Type := mkMatch {
  index : nat;
  m0 : string;
  captures : Captures
}.

(** Length of the result array: the match and one entry per capture group. *)
Definition result_length (m : MatchResult) : nat := S (List.length (captures m)).

(** The loop of RegExpBuiltinExec: try the matcher at [i], [i+1], ... for
    [n] positions. *)
Fixpoint search (mt : Matcher) (input : string) (i n : nat) : option MatchResult :=
  match n with
  | O => None
  | S n' =>
      match mt input i with
      | Some (len, caps) => Some (mkMatch i (String.substring i len input) caps)
      | None => search mt input (S i) n'
      end
  end.

(** [re.exec(input)] with [re.lastIndex = lastIndex] beforehand: the result
    and the value of [re.lastIndex] afterwards.  A global expression starts
    at [lastIndex], fails when [lastIndex > input.length], sets [lastIndex]
    to the end of the match on success and to 0 on failure; an expression
    without the global flag starts at 0 and leaves [lastIndex] alone. *)
Definition exec (re : RegExp) (input : string) (lastIndex : nat)
  : option MatchResult * nat :=
  if global re then
    match search (matcher re) input lastIndex (S (String.length input) - lastIndex) with
    | Some m => (Some m, index m + String.length (m0 m))
    | None => (None, 0)
    end
  else
    match search (matcher re) input 0 (S (String.length input)) with
    | Some m => (Some m, lastIndex)
    | None => (None, lastIndex)
    end.

(** The loop shared by [RegExp.prototype[Symbol.match]] and
    [RegExp.prototype[Symbol.replace]] for a global expression: call [exec]
    until it returns null, and after an empty match advance [lastIndex] by
    one.  [None] when [fuel] calls of [exec] were not enough. *)
Fixpoint scan_from (fuel : nat) (re : RegExp) (input : string) (lastIndex : nat)
  : option (list MatchResult) :=
  match fuel with
  | O => None
  | S fuel' =>
      match exec re input lastIndex with
      | (None, _) => Some []
      | (Some m, lastIndex') =>
          let next := if String.length (m0 m) =? 0 then S lastIndex' else lastIndex' in
          match scan_from fuel' re input next with
          | Some ms => Some (m :: ms)
          | None => None
          end
      end
  end.

(** All matches of a global expression, left to right.  [length input + 2]
    calls of [exec] always suffice ([scan_from_total] below), so the default
    is never taken. *)
Definition scan (re : RegExp) (input : string) : list MatchResult :=
  match scan_from (String.length input + 2) re input 0 with
  | Some ms => ms
  | None => []
  end.

(** [input.match(re)]: null, or an array.  With the global flag the array
    holds the matched strings; without it the array is the result of one
    [exec]: the match followed by its captures. *)
Definition String_match (input : string) (re : RegExp) : option (list (option string)) :=
  if global re then
    match scan re input with
    | [] => None
    | ms => Some (map (fun m => Some (m0 m)) ms)
    end
  else
    match fst (exec re input 0) with
    | Some m => Some (Some (m0 m) :: captures m)
    | None => None
    end.

(** *** Replacement templates (GetSubstitution) *)

Definition digit_of (c : ascii) : option nat :=
  let n := Ascii.nat_of_ascii c in
  if (48 <=? n) && (n <=? 57) then Some (n - 48) else None.

Definition capture_text (caps : Captures) (n : nat) : string :=
  match nth_error caps (n - 1) with
  | Some (Some s) => s
  | _ => EmptyString
  end.

(** [GetSubstitution(matched, str, position, captures, undefined, template)]:
    [$$], [$&], [$`], [$'], [$n] and [$nn] are expanded, everything else is
    copied. *)
Fixpoint GetSubstitution (matched str : string) (position : nat) (caps : Captures)
    (template : string) : string :=
  let ncaps := List.length caps in
  match template with
  | EmptyString => EmptyString
  | String c rest =>
      if negb (Ascii.eqb c DOLLAR) then
        String c (GetSubstitution matched str position caps rest)
      else
        match rest with
        | EmptyString => String c EmptyString
        | String d rest1 =>
            let continue1 := GetSubstitution matched str position caps rest1 in
            if Ascii.eqb d DOLLAR then String DOLLAR continue1
            else if Ascii.eqb d "&"%char then matched +++ continue1
            else if Ascii.eqb d "`"%char then String.substring 0 position str +++ continue1
            else if Ascii.eqb d "'"%char then
              drop (position + String.length matched) str +++ continue1
            else
              match digit_of d with
              | None => String c (String d continue1)
              | Some n1 =>
                  let one :=
                    if (1 <=? n1) && (n1 <=? ncaps)
                    then capture_text caps n1 +++ continue1
                    else String c (String d continue1) in
                  match rest1 with
                  | EmptyString => one
                  | String e rest2 =>
                      match digit_of e with
                      | None => one
                      | Some n2 =>
                          let nn := 10 * n1 + n2 in
                          if nn <=? ncaps then
                            if 1 <=? nn
                            then capture_text caps nn +++
                                 GetSubstitution matched str position caps rest2
                            else String c (String d (String e
                                 (GetSubstitution matched str position caps rest2)))
                          else one
                      end
                  end
              end
        end
  end.

(** The second half of [RegExp.prototype[Symbol.replace]]: splice the
    substitutions into [str]. *)
Fixpoint splice (str template : string) (results : list MatchResult)
    (nextSourcePosition : nat) (acc : string) : string :=
  match results with
  | [] => acc +++ drop nextSourcePosition str
  | m :: rest =>
      let position := Nat.min (index m) (String.length str) in
      if nextSourcePosition <=? position then
        splice str template rest (position + String.length (m0 m))
          (acc +++ slice nextSourcePosition position str
               +++ GetSubstitution (m0 m) str position (captures m) template)
      else splice str template rest nextSourcePosition acc
  end.

(** [str.replace(re, template)] for a string [template]: every match of a
    global expression is replaced, the first one otherwise. *)
Definition String_replace (str : string) (re : RegExp) (template : string) : string :=
  let results :=
    if global re then scan re str
    else match fst (exec re str 0) with Some m => [m] | None => [] end in
  splice str template results 0 EmptyString.

(** *** [split] and [join] *)

Fixpoint code_units (s : string) : list string :=
  match s with
  | EmptyString => []
  | String c s' => String c EmptyString :: code_units s'
  end.

(** The loop of [String.prototype.split] for a non-empty separator, one code
    unit at a time: [skip] counts the code units of a separator still to be
    stepped over, [cur] is the piece being collected. *)
Fixpoint split_go (sep s : string) (skip : nat) (cur : string) : list string :=
  match s with
  | EmptyString => [cur]
  | String c s' =>
      match skip with
      | S k => split_go sep s' k cur
      | O =>
          if String.prefix sep s
          then cur :: split_go sep s' (String.length sep - 1) EmptyString
          else split_go sep s' 0 (cur +++ String c EmptyString)
      end
  end.

(** [s.split(sep)] for a string [sep] and no limit. *)
Definition String_split (s sep : string) : list string :=
  match sep with
  | EmptyString => code_units s
  | _ => split_go sep s 0 EmptyString
  end.

(** [pieces.join(sep)] *)
Fixpoint Array_join (pieces : list string) (sep : string) : string :=
  match pieces with
  | [] => EmptyString
  | [p] => p
  | p :: rest => p +++ sep +++ Array_join rest sep
  end.

(** ** The plugin's data (main.ts, lines 18-54) *)

Record SavedExpression : Type := mkExpr {
  name : string;
  pattern : string;
  flags : string;
  replace : string
}.

Record ExpressionGroup : Type := mkGroup {
  group_name : string;
  items : list string
}.

Record RfrPluginSettings : Type := mkSettings {
  findText : string;
  replaceText : string;
  useRegEx : bool;
  selOnly : bool;
  caseInsensitive : bool;
  processLineBreak : bool;
  processTab : bool;
  prefillFind : bool;
  savedExpressions : list SavedExpression;
  savedGroups : list ExpressionGroup
}.

Definition DEFAULT_SETTINGS : RfrPluginSettings :=
  mkSettings EmptyString EmptyString true false false false false false [] [].

(** ** The host editor

    The editor holds the document as the text before the selection, the
    selected text and the text after it, and records every text read and
    write the plugin issues. *)

Inductive EditorCall : Type :=
| GetValue
| GetSelection
| SetValue (text : string)
| ReplaceSelection (text : string).

Record Editor : Type := mkEditor {
  before : string;
  selected : string;
  after : string;
  calls : list EditorCall
}.

Definition document (ed : Editor) : string := before ed +++ selected ed +++ after ed.

Definition is_read (c : EditorCall) : bool :=
  match c with GetValue | GetSelection => true | _ => false end.

Definition is_write (c : EditorCall) : bool :=
  match c with SetValue _ | ReplaceSelection _ => true | _ => false end.

Definition reads (ed : Editor) : nat := List.length (filter is_read (calls ed)).
Definition writes (ed : Editor) : nat := List.length (filter is_write (calls ed)).

(** ** Notices

    The messages the plugin shows, one constructor per template string. *)

Inductive Scope : Type := InDocument | InSelection.

Inductive Notice : Type :=
| NoticeSavedExpression (n : string)
| NoticeDeletedExpression (n : string)
| NoticeSavedPreset (n : string)
| NoticeDeletedPreset (n : string)
| NoticeApplied (n : string) (replacements : nat) (sc : Scope)
| NoticeNoMatchFor (n : string) (sc : Scope)
| NoticeNoExpressionsSelected
| NoticeBatchApplied (expressions replacements : nat)
| NoticePresetEmpty (n : string)
| NoticeNothingToSearch
| NoticeNoMatch
| NoticeMade (replacements : Z) (label : string).

(** ** Effects

    A handler runs against the editor, the plugin's settings object and the
    notices shown so far.  It returns, throws, or (for the one hand-written
    loop in the source) runs out of the steps it was given. *)

Record World : Type := mkWorld {
  editor : Editor;
  settings : RfrPluginSettings;
  notices : list Notice
}.

Inductive Exn : Type :=
| SyntaxError (p f : string).

Inductive Result (A : Type) : Type :=
| Returned (a : A)
| Thrown (e : Exn)
| OutOfFuel.
Arguments Returned {A} a.
Arguments Thrown {A} e.
Arguments OutOfFuel {A}.

Definition Action (A : Type) : Type := World -> Result A * World.

Definition ret {A} (a : A) : Action A := fun w => (Returned a, w).

Definition bind {A B} (c : Action A) (k : A -> Action B) : Action B :=
  fun w =>
    match c w with
    | (Returned a, w') => k a w'
    | (Thrown e, w') => (Thrown e, w')
    | (OutOfFuel, w') => (OutOfFuel, w')
    end.

Definition throw {A} (e : Exn) : Action A := fun w => (Thrown e, w).

Definition try_catch {A} (c : Action A) (handler : Exn -> Action A) : Action A :=
  fun w =>
    match c w with
    | (Thrown e, w') => handler e w'
    | r => r
    end.

Notation "x <- c ;; k" := (bind c (fun x => k))
  (at level 61, c at next level, right associativity).
Notation "c ;;; k" := (bind c (fun _ => k))
  (at level 61, right associativity).

Definition log_call (c : EditorCall) (ed : Editor) : Editor :=
  mkEditor (before ed) (selected ed) (after ed) (calls ed ++ [c]).

Definition getValue : Action string :=
  fun w => (Returned (document (editor w)),
            mkWorld (log_call GetValue (editor w)) (settings w) (notices w)).

Definition getSelection : Action string :=
  fun w => (Returned (selected (editor w)),
            mkWorld (log_call GetSelection (editor w)) (settings w) (notices w)).

(** [editor.setValue(text)]: the whole document becomes [text]; the cursor
    goes to the start. *)
Definition setValue (text : string) : Action unit :=
  fun w => (Returned tt,
            mkWorld (mkEditor EmptyString EmptyString text
                       (calls (editor w) ++ [SetValue text]))
                    (settings w) (notices w)).

(** [editor.replaceSelection(text)]: [text] takes the place of the selected
    text; the cursor goes after it. *)
Definition replaceSelection (text : string) : Action unit :=
  fun w => (Returned tt,
            mkWorld (mkEditor (before (editor w) +++ text) EmptyString (after (editor w))
                       (calls (editor w) ++ [ReplaceSelection text]))
                    (settings w) (notices w)).

(** [editor.posToOffset(editor.getCursor('from'))] *)
Definition selectionStart : Action nat :=
  fun w => (Returned (String.length (before (editor w))), w).

Definition getSettings : Action RfrPluginSettings :=
  fun w => (Returned (settings w), w).

Definition setSettings (st : RfrPluginSettings) : Action unit :=
  fun w => (Returned tt, mkWorld (editor w) st (notices w)).

Definition new_Notice (n : Notice) : Action unit :=
  fun w => (Returned tt, mkWorld (editor w) (settings w) (notices w ++ [n])).

(** ** The plugin (class RegexFindReplacePlugin) *)

(** The regular expression literals [/\\n/gm] and [/\\t/gm]: a backslash
    followed by the letter. *)
Definition backslash_matcher (c : ascii) : Matcher :=
  fun input i =>
    if String.prefix (String BACKSLASH (String c EmptyString)) (drop i input)
    then Some (2, [])
    else None.

Definition re_backslash_n : RegExp := mkRegExp true (backslash_matcher "n"%char).
Definition re_backslash_t : RegExp := mkRegExp true (backslash_matcher "t"%char).

(** "Process special sequences in replace string" (lines 242-243, 269-270
    and 487-500): the line-break replacement runs first, the tab
    replacement second. *)
Definition processEscapes (st : RfrPluginSettings) (replaceString : string) : string :=
  let replaceString :=
    if processLineBreak st
    then String_replace replaceString re_backslash_n (String LF EmptyString)
    else replaceString in
  if processTab st
  then String_replace replaceString re_backslash_t (String TAB EmptyString)
  else replaceString.

(** [getRegexFlags] (lines 169-173), also lines 310-311 of the modal. *)
Definition getRegexFlags (st : RfrPluginSettings) : string :=
  if caseInsensitive st then "gmi"%string else "gm"%string.

(** [names.includes(n)] *)
Definition includes (names : list string) (n : string) : bool :=
  existsb (String.eqb n) names.

Fixpoint findIndex {A : Type} (p : A -> bool) (l : list A) : option nat :=
  match l with
  | [] => None
  | x :: l' => if p x then Some 0 else option_map S (findIndex p l')
  end.

Fixpoint set_at {A : Type} (i : nat) (x : A) (l : list A) : list A :=
  match l, i with
  | [], _ => []
  | _ :: l', O => x :: l'
  | y :: l', S i' => y :: set_at i' x l'
  end.

Definition with_expressions (st : RfrPluginSettings) (es : list SavedExpression)
  : RfrPluginSettings :=
  mkSettings (findText st) (replaceText st) (useRegEx st) (selOnly st)
    (caseInsensitive st) (processLineBreak st) (processTab st) (prefillFind st)
    es (savedGroups st).

Definition with_groups (st : RfrPluginSettings) (gs : list ExpressionGroup)
  : RfrPluginSettings :=
  mkSettings (findText st) (replaceText st) (useRegEx st) (selOnly st)
    (caseInsensitive st) (processLineBreak st) (processTab st) (prefillFind st)
    (savedExpressions st) gs.

(** Lines 212-236.  Persisting the settings object ([saveSettings]) is left
    to the host. *)
Definition saveOrUpdateExpression (expr : SavedExpression) : Action unit :=
  st <- getSettings ;;
  setSettings (with_expressions st
    match findIndex (fun e => String.eqb (name e) (name expr)) (savedExpressions st) with
    | Some idx => set_at idx expr (savedExpressions st)
    | None => savedExpressions st ++ [expr]
    end) ;;;
  new_Notice (NoticeSavedExpression (name expr)).

Definition deleteExpressionByName (n : string) : Action unit :=
  st <- getSettings ;;
  setSettings (with_expressions st
    (filter (fun e => negb (String.eqb (name e) n)) (savedExpressions st))) ;;;
  new_Notice (NoticeDeletedExpression n).

Definition saveOrUpdateGroup (group : ExpressionGroup) : Action unit :=
  st <- getSettings ;;
  setSettings (with_groups st
    match findIndex (fun g => String.eqb (group_name g) (group_name group)) (savedGroups st) with
    | Some idx => set_at idx group (savedGroups st)
    | None => savedGroups st ++ [group]
    end) ;;;
  new_Notice (NoticeSavedPreset (group_name group)).

Definition deleteGroupByName (n : string) : Action unit :=
  st <- getSettings ;;
  setSettings (with_groups st
    (filter (fun g => negb (String.eqb (group_name g) n)) (savedGroups st))) ;;;
  new_Notice (NoticeDeletedPreset n).

Section Plugin.

(** The runtime's pattern compiler: [CompilePattern p f] is the matcher of
    [new RegExp(p, f)], or [None] when the constructor throws a
    SyntaxError. *)
Variable CompilePattern : string -> string -> option Matcher.

Definition new_RegExp (p f : string) : Action RegExp :=
  match CompilePattern p f with
  | Some mt => ret (mkRegExp (has_char "g"%char f) mt)
  | None => throw (SyntaxError p f)
  end.

(** [applyExpression] (lines 238-260) *)
Definition applyExpression (expr : SavedExpression) : Action unit :=
  searchRegex <- new_RegExp (pattern expr) (flags expr) ;;
  st <- getSettings ;;
  let replaceString := processEscapes st (replace expr) in
  if negb (selOnly st) then
    documentText <- getValue ;;
    match String_match documentText searchRegex with
    | Some rresult =>
        setValue (String_replace documentText searchRegex replaceString) ;;;
        new_Notice (NoticeApplied (name expr) (List.length rresult) InDocument)
    | None => new_Notice (NoticeNoMatchFor (name expr) InDocument)
    end
  else
    selectedText <- getSelection ;;
    match String_match selectedText searchRegex with
    | Some rresult =>
        replaceSelection (String_replace selectedText searchRegex replaceString) ;;;
        new_Notice (NoticeApplied (name expr) (List.length rresult) InSelection)
    | None => new_Notice (NoticeNoMatchFor (name expr) InSelection)
    end.

(** The [for (const expr of exprs)] loop of [applyBatch] (lines 266-276),
    with its two locals [total] and [text]. *)
Fixpoint batchLoop (exprs : list SavedExpression) (total : nat) (text : string)
  : Action (nat * string) :=
  match exprs with
  | [] => ret (total, text)
  | expr :: rest =>
      searchRegex <- new_RegExp (pattern expr) (flags expr) ;;
      st <- getSettings ;;
      let replaceString := processEscapes st (replace expr) in
      match String_match text searchRegex with
      | Some hits =>
          batchLoop rest (total + List.length hits)
            (String_replace text searchRegex replaceString)
      | None => batchLoop rest total text
      end
  end.

(** [applyBatch] (lines 262-279) *)
Definition applyBatch (exprs : list SavedExpression) : Action unit :=
  if List.length exprs =? 0 then new_Notice NoticeNoExpressionsSelected
  else
    st <- getSettings ;;
    text <- (if selOnly st then getSelection else getValue) ;;
    r <- batchLoop exprs 0 text ;;
    st' <- getSettings ;;
    (if selOnly st' then replaceSelection (snd r) else setValue (snd r)) ;;;
    new_Notice (NoticeBatchApplied (List.length exprs) (fst r)).

(** [applyGroup] (lines 281-285) *)
Definition applyGroup (group : ExpressionGroup) : Action unit :=
  st <- getSettings ;;
  let exprs := filter (fun e => includes (items group) (name e)) (savedExpressions st) in
  if List.length exprs =? 0 then new_Notice (NoticePresetEmpty (group_name group))
  else applyBatch exprs.

(** ** The dialog (class FindAndReplaceModal) *)

(** The dialog's input components when a handler runs. *)
Record ModalInputs : Type := mkInputs {
  findInputComponent : string;
  replaceWithInputComponent : string;
  regToggleComponent : bool;
  selToggleComponent : bool
}.

Record MatchRange : Type := mkRange { from : nat; to : nat }.

Record PreviewItem : Type := mkItem {
  item_text : string;
  item_from : nat;
  item_to : nat
}.

(** The text of the [previewInfo] row. *)
Inductive PreviewInfo : Type :=
| InfoMatches (n : nat)
| InfoInvalidRegex.

(** One row of the preview list: its number, the matched text and the
    offset the host turns into a line:column label. *)
Record PreviewEntry : Type := mkEntry {
  entry_number : nat;
  entry_text : string;
  entry_offset : nat
}.

(** What a run of [updatePreview] leaves on screen: the info row, the
    highlighted ranges, the list rows and the "... n more" row. *)
Record PreviewUI : Type := mkUI {
  previewInfo : PreviewInfo;
  highlights : list MatchRange;
  previewList : list PreviewEntry;
  previewMore : option nat
}.

(** State of the [while] loop of [updatePreview]: [re.lastIndex] and the
    two arrays [ranges] and [items] (here [matchItems]). *)
Record ScanState : Type := mkScan {
  lastIndex : nat;
  ranges : list MatchRange;
  matchItems : list PreviewItem
}.

(** One evaluation of the loop condition and, when [re.exec] found a
    match, of the loop body (lines 416-425); [None] when [re.exec]
    returned null. *)
Definition scanStep (re : RegExp) (targetText : string) (startOffset : nat)
    (s : ScanState) : option ScanState :=
  match exec re targetText (lastIndex s) with
  | (None, _) => None
  | (Some m, lastIndex') =>
      let start := index m in
      let end_ := start + String.length (m0 m) in
      let pushed := start <? end_ in
      Some (mkScan
        (if String.length (m0 m) =? 0 then S lastIndex' else lastIndex')
        (if pushed
         then ranges s ++ [mkRange (startOffset + start) (startOffset + end_)]
         else ranges s)
        (if pushed
         then matchItems s ++ [mkItem (m0 m) (startOffset + start) (startOffset + end_)]
         else matchItems s))
  end.

(** The [while] loop, given [fuel] evaluations of its condition: the final
    state and the number of times the body ran, or [None] when the
    condition still held after [fuel] evaluations. *)
Fixpoint scanLoop (fuel : nat) (re : RegExp) (targetText : string) (startOffset : nat)
    (s : ScanState) : option (ScanState * nat) :=
  match fuel with
  | O => None
  | S fuel' =>
      match scanStep re targetText startOffset s with
      | None => Some (s, 0)
      | Some s' =>
          match scanLoop fuel' re targetText startOffset s' with
          | Some (final, n) => Some (final, S n)
          | None => None
          end
      end
  end.

Definition runScan (fuel : nat) (re : RegExp) (targetText : string) (startOffset : nat)
  : Action ScanState :=
  match scanLoop fuel re targetText startOffset (mkScan 0 [] []) with
  | Some (final, _) => ret final
  | None => fun w => (OutOfFuel, w)
  end.

Definition limit : nat := 200.

(** The rows created by the [for] loop over [show] (lines 432-439). *)
Fixpoint renderEntries (i : nat) (show : list PreviewItem) : list PreviewEntry :=
  match show with
  | [] => []
  | it :: rest => mkEntry (i + 1) (item_text it) (item_from it) :: renderEntries (S i) rest
  end.

Definition emptyPreview (info : PreviewInfo) : PreviewUI := mkUI info [] [] None.

(** [updatePreview] (lines 391-449); [regexFlags] is the dialog's local of
    that name, [fuel] bounds the evaluations of the loop condition. *)
Definition updatePreview (fuel : nat) (regexFlags : string) (inp : ModalInputs)
  : Action PreviewUI :=
  let pattern := findInputComponent inp in
  let useRegex := regToggleComponent inp in
  if negb useRegex || (String.length pattern =? 0) then
    ret (emptyPreview (InfoMatches 0))
  else
    let selOnly := selToggleComponent inp in
    targetText <- (if selOnly then getSelection else getValue) ;;
    startOffset <- (if selOnly then selectionStart else ret 0) ;;
    try_catch
      (re <- new_RegExp pattern regexFlags ;;
       s <- runScan fuel re targetText startOffset ;;
       let show := firstn limit (matchItems s) in
       ret (mkUI (InfoMatches (List.length (ranges s)))
                 (ranges s)
                 (renderEntries 0 show)
                 (if limit <? List.length (matchItems s)
                  then Some (List.length (matchItems s) - limit)
                  else None)))
      (fun _ => ret (emptyPreview InfoInvalidRegex)).

Definition with_last_run (st : RfrPluginSettings) (searchString replaceString : string)
    (useRegEx' selOnly' : bool) : RfrPluginSettings :=
  mkSettings searchString replaceString useRegEx' selOnly'
    (caseInsensitive st) (processLineBreak st) (processTab st) (prefillFind st)
    (savedExpressions st) (savedGroups st).

(** The click handler of the "Replace All" button (lines 474-558).  The
    result string is kept as a notice; the labels of the literal branch are
    the source's. *)
Definition replaceAll (regexFlags : string) (inp : ModalInputs) : Action unit :=
  let searchString := findInputComponent inp in
  selectedText <- getSelection ;;
  if String.length searchString =? 0 then new_Notice NoticeNothingToSearch
  else
    st <- getSettings ;;
    let replaceString := processEscapes st (replaceWithInputComponent inp) in
    resultString <-
      (if regToggleComponent inp then
         searchRegex <- new_RegExp searchString regexFlags ;;
         if negb (selToggleComponent inp) then
           documentText <- getValue ;;
           match String_match documentText searchRegex with
           | Some rresult =>
               setValue (String_replace documentText searchRegex replaceString) ;;;
               ret (NoticeMade (Z.of_nat (List.length rresult)) "document")
           | None => ret NoticeNoMatch
           end
         else
           match String_match selectedText searchRegex with
           | Some rresult =>
               replaceSelection (String_replace selectedText searchRegex replaceString) ;;;
               ret (NoticeMade (Z.of_nat (List.length rresult)) "selection")
           | None => ret NoticeNoMatch
           end
       else
         if negb (selToggleComponent inp) then
           documentText <- getValue ;;
           let documentSplit := String_split documentText searchString in
           let nrOfHits := (Z.of_nat (List.length documentSplit) - 1)%Z in
           setValue (Array_join documentSplit replaceString) ;;;
           ret (NoticeMade nrOfHits "selection")
         else
           let selectedSplit := String_split selectedText searchString in
           let nrOfHits := (Z.of_nat (List.length selectedSplit) - 1)%Z in
           replaceSelection (Array_join selectedSplit replaceString) ;;;
           ret (NoticeMade nrOfHits "document")) ;;
    setSettings (with_last_run st searchString replaceString
                   (regToggleComponent inp) (selToggleComponent inp)) ;;;
    new_Notice resultString.

End Plugin.

(** ** A reference pattern compiler

    Closed statements need a compiler to run.  [MiniRegExp.compile]
    implements the ECMA-262 semantics (backtracking, leftmost alternative
    first, greedy star that refuses empty iterations, numbered captures) for
    the fragment of the pattern language made of literal characters, [.],
    [*], [|] and parentheses, with the flags [g], [i] and [m], over ASCII
    text.  A pattern that uses any other syntax character, or a flag
    outside [gim], is not accepted by this compiler; no statement below
    uses one. *)

Module MiniRegExp.

Inductive regex : Type :=
| Eps
| Chr (c : ascii)
| AnyChar
| Seq (r1 r2 : regex)
| Alt (r1 r2 : regex)
| Star (r : regex)
| Group (k : nat) (r : regex).

(** *** Parsing *)

(** An open group (or the whole pattern, numbered 0): the alternatives
    already closed by [|], and the terms of the current alternative, last
    term first. *)
Record Frame : Type := mkFrame {
  frame_group : nat;
  frame_alts : list regex;
  frame_terms : list regex
}.

Definition seq_of (terms_rev : list regex) : regex :=
  fold_left (fun acc t => Seq t acc) terms_rev Eps.

Fixpoint alt_of (first : regex) (others : list regex) : regex :=
  match others with
  | [] => first
  | r :: rest => Alt first (alt_of r rest)
  end.

Definition close (f : Frame) : regex :=
  match frame_alts f ++ [seq_of (frame_terms f)] with
  | [] => Eps
  | first :: others => alt_of first others
  end.

Definition is_unsupported (c : ascii) : bool :=
  has_char c "\^$+?[]{}".

(** One pass over the pattern.  [stack] holds the enclosing frames, [cur]
    the innermost one, [ngroups] counts the left parentheses seen,
    [quantifiable] tells whether a [*] may follow.  [None] is a
    SyntaxError: [*] with nothing to repeat, or unbalanced parentheses. *)
Fixpoint parse_go (p : string) (stack : list Frame) (cur : Frame) (ngroups : nat)
    (quantifiable : bool) : option (regex * nat) :=
  match p with
  | EmptyString =>
      match stack with
      | [] => Some (close cur, ngroups)
      | _ :: _ => None
      end
  | String c p' =>
      if Ascii.eqb c "("%char then
        parse_go p' (cur :: stack) (mkFrame (S ngroups) [] []) (S ngroups) false
      else if Ascii.eqb c ")"%char then
        match stack with
        | [] => None
        | parent :: stack' =>
            parse_go p' stack'
              (mkFrame (frame_group parent) (frame_alts parent)
                 (Group (frame_group cur) (close cur) :: frame_terms parent))
              ngroups true
        end
      else if Ascii.eqb c "|"%char then
        parse_go p' stack
          (mkFrame (frame_group cur) (frame_alts cur ++ [seq_of (frame_terms cur)]) [])
          ngroups false
      else if Ascii.eqb c "*"%char then
        match quantifiable, frame_terms cur with
        | true, t :: terms =>
            parse_go p' stack
              (mkFrame (frame_group cur) (frame_alts cur) (Star t :: terms))
              ngroups false
        | _, _ => None
        end
      else if is_unsupported c then None
      else
        parse_go p' stack
          (mkFrame (frame_group cur) (frame_alts cur)
             ((if Ascii.eqb c "."%char then AnyChar else Chr c) :: frame_terms cur))
          ngroups true
  end.

Definition parse (p : string) : option (regex * nat) :=
  parse_go p [] (mkFrame 0 [] []) 0 false.

Fixpoint valid_flags (seen f : string) : bool :=
  match f with
  | EmptyString => true
  | String c f' => has_char c "gim" && negb (has_char c seen) && valid_flags (String c seen) f'
  end.

(** *** Matching *)

(** Canonicalize, for the [i] flag: ASCII lower case to upper case. *)
Definition canonicalize (c : ascii) : ascii :=
  let n := Ascii.nat_of_ascii c in
  if (97 <=? n) && (n <=? 122) then Ascii.ascii_of_nat (n - 32) else c.

Definition same_char (ignoreCase : bool) (c d : ascii) : bool :=
  if ignoreCase then Ascii.eqb (canonicalize c) (canonicalize d) else Ascii.eqb c d.

Definition is_line_terminator (c : ascii) : bool := Ascii.eqb c LF || Ascii.eqb c CR.

Fixpoint groups_in (r : regex) : list nat :=
  match r with
  | Eps | Chr _ | AnyChar => []
  | Seq r1 r2 | Alt r1 r2 => groups_in r1 ++ groups_in r2
  | Star r' => groups_in r'
  | Group k r' => k :: groups_in r'
  end.

Definition clear_captures (ks : list nat) (caps : Captures) : Captures :=
  fold_left (fun cs k => set_at (k - 1) None cs) ks caps.

Definition Continuation := nat -> Captures -> option (nat * Captures).

(** The matcher of [r]: continue with [k] from the end index of a match of
    [r] at [i]; alternatives are tried in order. *)
Fixpoint run (ignoreCase : bool) (input : string) (r : regex) (i : nat)
    (caps : Captures) (k : Continuation) {struct r} : option (nat * Captures) :=
  match r with
  | Eps => k i caps
  | Chr c =>
      match String.get i input with
      | Some d => if same_char ignoreCase c d then k (S i) caps else None
      | None => None
      end
  | AnyChar =>
      match String.get i input with
      | Some d => if is_line_terminator d then None else k (S i) caps
      | None => None
      end
  | Seq r1 r2 =>
      run ignoreCase input r1 i caps (fun j caps' => run ignoreCase input r2 j caps' k)
  | Alt r1 r2 =>
      match run ignoreCase input r1 i caps k with
      | Some res => Some res
      | None => run ignoreCase input r2 i caps k
      end
  | Group n r' =>
      run ignoreCase input r' i caps
        (fun j caps' => k j (set_at (n - 1) (Some (slice i j input)) caps'))
  | Star r' =>
      (fix repeat_matcher (fuel : nat) (i : nat) (caps : Captures)
         : option (nat * Captures) :=
         match fuel with
         | O => k i caps
         | S fuel' =>
             match run ignoreCase input r' i (clear_captures (groups_in r') caps)
                     (fun j caps' => if j =? i then None else repeat_matcher fuel' j caps')
             with
             | Some res => Some res
             | None => k i caps
             end
         end) (S (String.length input)) i caps
  end.

Definition compile (p f : string) : option Matcher :=
  if valid_flags EmptyString f then
    match parse p with
    | Some (r, ngroups) =>
        Some (fun input i =>
                match run (has_char "i"%char f) input r i (repeat None ngroups)
                        (fun j caps => Some (j, caps)) with
                | Some (j, caps) => Some (j - i, caps)
                | None => None
                end)
    | None => None
    end
  else None.

End MiniRegExp.

(** [new RegExp(p, f)] under the reference compiler, for a pattern it
    accepts. *)
Definition mini_RegExp (p f : string) : RegExp :=
  mkRegExp (has_char "g"%char f)
    match MiniRegExp.compile p f with
    | Some mt => mt
    | None => fun _ _ => None
    end.

(** A world whose document is [doc], with nothing selected, the default
    settings and a fresh call log. *)
Definition fresh_world (doc : string) : World :=
  mkWorld (mkEditor EmptyString EmptyString doc []) DEFAULT_SETTINGS [].

(** ** Vocabulary of the statements *)

(** *** The preview scan *)

Definition nonempty (m : MatchResult) : bool := 0 <? String.length (m0 m).

Definition range_of (startOffset : nat) (m : MatchResult) : MatchRange :=
  mkRange (startOffset + index m) (startOffset + (index m + String.length (m0 m))).

Definition item_of (startOffset : nat) (m : MatchResult) : PreviewItem :=
  mkItem (m0 m) (startOffset + index m) (startOffset + (index m + String.length (m0 m))).

Definition scan_start : ScanState := mkScan 0 [] [].

(** The text [updatePreview] scans and the offset it adds to every match. *)
Definition previewTarget (inp : ModalInputs) (w : World) : string :=
  if selToggleComponent inp then selected (editor w) else document (editor w).

Definition previewOffset (inp : ModalInputs) (w : World) : nat :=
  if selToggleComponent inp then String.length (before (editor w)) else 0.

(** The world after one read of the scope text. *)
Definition after_read (selection : bool) (w : World) : World :=
  mkWorld (log_call (if selection then GetSelection else GetValue) (editor w))
          (settings w) (notices w).

(** What [updatePreview] shows for the matches [ms] of the scanner. *)
Definition preview_of (startOffset : nat) (ms : list MatchResult) : PreviewUI :=
  let shown := filter nonempty ms in
  mkUI (InfoMatches (List.length shown))
       (map (range_of startOffset) shown)
       (renderEntries 0 (firstn limit (map (item_of startOffset) shown)))
       (if limit <? List.length shown then Some (List.length shown - limit) else None).

(** The editor's text is the same in both worlds. *)
Definition same_text (w w' : World) : Prop :=
  before (editor w') = before (editor w) /\
  selected (editor w') = selected (editor w) /\
  after (editor w') = after (editor w).

(** *** The transform engine *)

(** The three entry points of the engine. *)
Inductive Invocation : Type :=
| ApplyExpression (expr : SavedExpression)
| ApplyBatch (exprs : list SavedExpression)
| ApplyGroup (group : ExpressionGroup).

Definition invoke (CP : string -> string -> option Matcher) (inv : Invocation)
  : Action unit :=
  match inv with
  | ApplyExpression expr => applyExpression CP expr
  | ApplyBatch exprs => applyBatch CP exprs
  | ApplyGroup group => applyGroup CP group
  end.

(** The stored expressions a group names, in the store's order (the filter
    of line 282). *)
Definition resolve (st : RfrPluginSettings) (group : ExpressionGroup)
  : list SavedExpression :=
  filter (fun e => includes (items group) (name e)) (savedExpressions st).

(** The expressions an invocation compiles. *)
Definition members (st : RfrPluginSettings) (inv : Invocation) : list SavedExpression :=
  match inv with
  | ApplyExpression expr => [expr]
  | ApplyBatch exprs => exprs
  | ApplyGroup group => resolve st group
  end.


Definition requests_global (e : SavedExpression) : bool := has_char "g"%char (flags e).

(** The scope text: the selection in selection-only mode, the document
    otherwise. *)
Definition scopeText (w : World) : string :=
  if selOnly (settings w) then selected (editor w) else document (editor w).


(** The world after one write of the scope text. *)
Definition after_write (selection : bool) (text : string) (w : World) : World :=
  mkWorld
    (if selection
     then mkEditor (before (editor w) +++ text) EmptyString (after (editor w))
            (calls (editor w) ++ [ReplaceSelection text])
     else mkEditor EmptyString EmptyString text (calls (editor w) ++ [SetValue text]))
    (settings w) (notices w).

Definition with_notice (n : Notice) (w : World) : World :=
  mkWorld (editor w) (settings w) (notices w ++ [n]).

(** The world a successful batch leaves: one read, one write of
    [resultText], one notice. *)
Definition batch_done (w : World) (n : nat) (resultText : string) (totalCount : nat)
  : World :=
  with_notice (NoticeBatchApplied n totalCount)
    (after_write (selOnly (settings w)) resultText
       (after_read (selOnly (settings w)) w)).

(** The specification's single-expression step in regex mode (spec 4.4):
    compile; scan; with no match the text is returned unchanged with count
    0; otherwise one replace-all pass with the resolved template, the count
    being the number of matches of the scan.  [None] is InvalidPattern. *)
Definition applyOne (CP : string -> string -> option Matcher) (st : RfrPluginSettings)
    (text : string) (expression : SavedExpression) : option (string * nat) :=
  match CP (pattern expression) (flags expression) with
  | None => None
  | Some mt =>
      let re := mkRegExp true mt in
      let count := List.length (scan re text) in
      if count =? 0 then Some (text, 0)
      else Some (String_replace text re (processEscapes st (replace expression)), count)
  end.

(** The specification's batch (spec 4.4): the expressions in list order,
    each on the output of the previous one; the total is the sum of the
    counts, each measured on the text the expression received. *)
Fixpoint sequential (CP : string -> string -> option Matcher) (st : RfrPluginSettings)
    (text : string) (expressions : list SavedExpression) : option (string * nat) :=
  match expressions with
  | [] => Some (text, 0)
  | e :: rest =>
      match applyOne CP st text e with
      | None => None
      | Some (text1, count1) =>
          match sequential CP st text1 rest with
          | None => None
          | Some (resultText, counts) => Some (resultText, count1 + counts)
          end
      end
  end.

(** The two expressions of the batch-order example (spec 8). *)
Definition expression_A : SavedExpression := mkExpr "A" "foo" "gm" "bar".
Definition expression_B : SavedExpression := mkExpr "B" "bar" "gm" "baz".

(** *** Escapes and literal replacement *)

(** Every backslash followed by [c] replaced by [r], left to right: what
    [s.replace(/\\c/gm, r)] computes ([String_replace_backslash] below). *)
Fixpoint expand (c r : ascii) (s : string) : string :=
  match s with
  | EmptyString => EmptyString
  | String a s' =>
      if Ascii.eqb a BACKSLASH then
        match s' with
        | String b s'' =>
            if Ascii.eqb b c then String r (expand c r s'')
            else String a (expand c r s')
        | EmptyString => String a EmptyString
        end
      else String a (expand c r s')
  end.

(** The two-character sequence backslash, [c]. *)
Definition escape (c : ascii) : string := String BACKSLASH (String c EmptyString).

(** [s] contains a backslash immediately followed by [c]. *)
Fixpoint has_escape (c : ascii) (s : string) : bool :=
  match s with
  | EmptyString => false
  | String _ s' => String.prefix (escape c) s || has_escape c s'
  end.

(** Offset of the first backslash followed by [c] in [s]. *)
Fixpoint first_escape (c : ascii) (s : string) : option nat :=
  match s with
  | EmptyString => None
  | String _ s' =>
      if String.prefix (escape c) s then Some 0 else option_map S (first_escape c s')
  end.

(** The text the "Replace All" handler works on. *)
Definition replaceAllTarget (inp : ModalInputs) (w : World) : string :=
  if selToggleComponent inp then selected (editor w) else document (editor w).

(** The label the handler puts in its result string in literal mode. *)
Definition literal_label (inp : ModalInputs) : string :=
  if selToggleComponent inp then "document"%string else "selection"%string.

(** ** Further handlers of main.ts *)

(** White space and line terminators, as [String.prototype.trim] strips
    them, among 8-bit code units: TAB, LF, VT, FF, CR, space and the
    no-break space. *)
Definition is_white_space (c : ascii) : bool :=
  let n := Ascii.nat_of_ascii c in
  ((9 <=? n) && (n <=? 13)) || (n =? 32) || (n =? 160).

Fixpoint trimStart (s : string) : string :=
  match s with
  | EmptyString => EmptyString
  | String c s' => if is_white_space c then trimStart s' else s
  end.

Fixpoint trimEnd (s : string) : string :=
  match s with
  | EmptyString => EmptyString
  | String c s' =>
      match trimEnd s' with
      | EmptyString => if is_white_space c then EmptyString else String c EmptyString
      | t => String c t
      end
  end.

(** [s.trim()] *)
Definition trim (s : string) : string := trimEnd (trimStart s).

(** A reference [toLowerCase] for closed examples, on ASCII and Latin-1
    text only: A-Z and the Latin-1 capitals (0xC0-0xDE but the
    multiplication sign 0xD7) move up by 32, one code unit at a time.
    [String.prototype.toLowerCase] itself is context sensitive beyond that
    range; the suggestion functions below take it from the runtime. *)
Definition lower_char (c : ascii) : ascii :=
  let n := Ascii.nat_of_ascii c in
  if ((65 <=? n) && (n <=? 90)) || ((192 <=? n) && (n <=? 222) && negb (n =? 215))
  then Ascii.ascii_of_nat (n + 32)
  else c.

Fixpoint latin1_toLowerCase (s : string) : string :=
  match s with
  | EmptyString => EmptyString
  | String c s' => String (lower_char c) (latin1_toLowerCase s')
  end.

(** [s.includes(sub)] *)
Fixpoint String_includes (s sub : string) : bool :=
  match s with
  | EmptyString => String.prefix sub EmptyString
  | String _ s' => String.prefix sub s || String_includes s' sub
  end.

(** [RunSavedExpressionSuggest.getSuggestions] (lines 806-809);
    [toLowerCase] is the runtime's [String.prototype.toLowerCase]. *)
Definition getSuggestions (toLowerCase : string -> string) (st : RfrPluginSettings)
    (query : string) : list SavedExpression :=
  let q := toLowerCase query in
  filter (fun e => String_includes (toLowerCase (name e)) q) (savedExpressions st).


(** How a click on "Save" in [SaveExpressionModal] ends; the two rejections
    stand for the notices 'Name is required' and 'Invalid pattern or
    flags'. *)
Inductive SaveOutcome : Type :=
| Saved
| NameRequired
| InvalidPatternOrFlags.

(** The click handler of the "Save" button of [SaveExpressionModal] (lines
    767-784), on the values of the four inputs. *)
Definition saveExpressionClicked (CP : string -> string -> option Matcher)
    (nameInput pattInput flagsInput replInput : string) : Action SaveOutcome :=
  let name := trim nameInput in
  let pattern := pattInput in
  let flags :=
    if String.length (trim flagsInput) =? 0 then "gm"%string else trim flagsInput in
  let replace := replInput in
  if String.length name =? 0 then ret NameRequired
  else
    valid <- try_catch (new_RegExp CP pattern flags ;;; ret true) (fun _ => ret false) ;;
    if valid : bool then
      saveOrUpdateExpression (mkExpr name pattern flags replace) ;;; ret Saved
    else ret InvalidPatternOrFlags.

(** The "Apply settings" block of [FindAndReplaceModal.onOpen] (lines
    560-589): the values the inputs hold once the dialog is open, from the
    settings and the selected text. *)
Definition initialInputs (st : RfrPluginSettings) (selection : string) : ModalInputs :=
  let noSelection := String.length selection =? 0 in
  let prefill := prefillFind st && negb (has_char LF selection) && negb noSelection in
  mkInputs
    (if prefill then selection else findText st)
    (replaceText st)
    (useRegEx st)
    (if noSelection then false else if prefill then false else selOnly st).

(** *** Vocabulary of the further statements *)

Definition names_of (es : list SavedExpression) : list string := map name es.

Definition group_names_of (gs : list ExpressionGroup) : list string := map group_name gs.

(** [sub] occurs in [s] at some position. *)
Fixpoint occurs (sub s : string) : bool :=
  match s with
  | EmptyString => false
  | String _ s' => String.prefix sub s || occurs sub s'
  end.

(** Two ranges in document order without overlap. *)
Definition range_before (r r' : MatchRange) : Prop := to r <= from r'.

(** Two matches in text order without overlap. *)
Definition match_before (m m' : MatchResult) : Prop :=
  index m + String.length (m0 m) <= index m'.

(** The expression the dialog's inputs describe. *)
Definition expression_of_inputs (n regexFlags : string) (inp : ModalInputs)
  : SavedExpression :=
  mkExpr n (findInputComponent inp) regexFlags (replaceWithInputComponent inp).

(** The editor's text, without the call log. *)
Definition editor_text (ed : Editor) : string * string * string :=
  (before ed, selected ed, after ed).

Definition with_settings (st : RfrPluginSettings) (w : World) : World :=
  mkWorld (editor w) st (notices w).

(** A text of [n] copies of the code unit [c]. *)
Fixpoint replicate (n : nat) (c : ascii) : string :=
  match n with
  | O => EmptyString
  | S n' => String c (replicate n' c)
  end.

(** The update [saveOrUpdateExpression] and [saveOrUpdateGroup] apply to
    their array: replace the first entry with the key of [x], or push [x]. *)
Definition upsert {A : Type} (key : A -> string) (x : A) (l : list A) : list A :=
  match findIndex (fun e => String.eqb (key e) (key x)) l with
  | Some idx => set_at idx x l
  | None => l ++ [x]
  end.

(** The filter of [deleteExpressionByName] and [deleteGroupByName]. *)
Definition remove_key {A : Type} (key : A -> string) (k : string) (l : list A) : list A :=
  filter (fun e => negb (String.eqb (key e) k)) l.


(** A range moved right by [offset]. *)
Definition shift_range (offset : nat) (r : MatchRange) : MatchRange :=
  mkRange (offset + from r) (offset + to r).

(** * Theorems *)

(** ** The runtime's search and scan *)

Lemma search_bounds (mt : Matcher) (input : string) (n i : nat) (m : MatchResult) :
  search mt input i n = Some m -> i <= index m < i + n.
Proof.
  revert i. induction n as [|n IH]; intros i H; simpl in H.
  - discriminate.
  - destruct (mt input i) as [[len caps]|].
    + inversion H; subst; simpl. lia.
    + apply IH in H. lia.
Qed.

Lemma exec_global_some (re : RegExp) (input : string) (li li' : nat) (m : MatchResult) :
  global re = true ->
  exec re input li = (Some m, li') ->
  li <= index m /\ index m <= String.length input /\ li' = index m + String.length (m0 m).
Proof.
  intros G H. unfold exec in H. rewrite G in H.
  destruct (search (matcher re) input li (S (String.length input) - li)) as [m'|] eqn:E.
  - inversion H; subst. apply search_bounds in E. lia.
  - discriminate.
Qed.

Lemma scan_from_total (re : RegExp) (input : string) :
  global re = true ->
  forall fuel li, S (String.length input) < fuel + li -> 0 < fuel ->
    exists ms, scan_from fuel re input li = Some ms /\ List.length ms < fuel.
Proof.
  intros G. induction fuel as [|fuel IH]; intros li Hf Hpos; [lia|].
  simpl. destruct (exec re input li) as [[m|] li'] eqn:E.
  - destruct (exec_global_some _ _ _ _ _ G E) as (H1 & H2 & H3).
    set (next := if String.length (m0 m) =? 0 then S li' else li').
    assert (Hn : li < next).
    { unfold next. destruct (String.length (m0 m) =? 0) eqn:Z.
      - lia.
      - apply Nat.eqb_neq in Z. lia. }
    destruct (IH next) as (ms & Hms & Hlen); [lia | lia |].
    rewrite Hms. exists (m :: ms). split; [reflexivity | simpl; lia].
  - exists []. split; [reflexivity | simpl; lia].
Qed.

Lemma scan_from_more_fuel (re : RegExp) (input : string) :
  forall fuel fuel' li ms,
    scan_from fuel re input li = Some ms -> fuel <= fuel' ->
    scan_from fuel' re input li = Some ms.
Proof.
  induction fuel as [|fuel IH]; intros fuel' li ms H Hle; [discriminate|].
  destruct fuel' as [|fuel']; [lia|].
  simpl in *. destruct (exec re input li) as [[m|] li']; [|exact H].
  destruct (scan_from fuel re input _) as [ms'|] eqn:E; [|discriminate].
  rewrite (IH fuel' _ ms' E); [exact H | lia].
Qed.

Lemma scan_spec (re : RegExp) (input : string) :
  global re = true ->
  scan_from (String.length input + 2) re input 0 = Some (scan re input) /\
  List.length (scan re input) <= String.length input + 1.
Proof.
  intros G. unfold scan.
  destruct (scan_from_total re input G (String.length input + 2) 0) as (ms & H & L);
    [lia | lia |].
  rewrite H. split; [reflexivity | lia].
Qed.

(** ** The preview loop *)

Lemma scanLoop_scan_from (re : RegExp) (targetText : string) (startOffset : nat) :
  forall fuel s ms,
    scan_from fuel re targetText (lastIndex s) = Some ms ->
    exists final,
      scanLoop fuel re targetText startOffset s = Some (final, List.length ms) /\
      ranges final = ranges s ++ map (range_of startOffset) (filter nonempty ms) /\
      matchItems final = matchItems s ++ map (item_of startOffset) (filter nonempty ms).
Proof.
  induction fuel as [|fuel IH]; intros s ms H; [discriminate|].
  simpl in H. simpl. unfold scanStep.
  destruct (exec re targetText (lastIndex s)) as [[m|] li'] eqn:E.
  - destruct (scan_from fuel re targetText _) as [ms'|] eqn:E'; [|discriminate].
    inversion H; subst ms; clear H.
    match goal with |- context [scanLoop fuel _ _ _ ?s'] => specialize (IH s' ms') end.
    destruct (IH E') as (final & Hl & Hr & Hi).
    exists final. rewrite Hl. split; [reflexivity|].
    rewrite Hr, Hi. simpl. unfold nonempty.
    replace (index m <? index m + String.length (m0 m))
      with (0 <? String.length (m0 m)).
    2:{ destruct (0 <? String.length (m0 m)) eqn:Z; symmetry.
        - apply Nat.ltb_lt. apply Nat.ltb_lt in Z. lia.
        - apply Nat.ltb_ge. apply Nat.ltb_ge in Z. lia. }
    destruct (0 <? String.length (m0 m)); simpl;
      rewrite <- ?app_assoc; simpl; split; reflexivity.
  - inversion H; subst. exists s. simpl. rewrite !app_nil_r. repeat split.
Qed.

Lemma scan_from_increasing (re : RegExp) (input : string) :
  global re = true ->
  forall fuel li ms,
    scan_from fuel re input li = Some ms ->
    Forall (fun m => li <= index m) ms /\ StronglySorted lt (map index ms).
Proof.
  intros G. induction fuel as [|fuel IH]; intros li ms H; [discriminate|].
  simpl in H. destruct (exec re input li) as [[m|] li'] eqn:E.
  - destruct (scan_from fuel re input _) as [ms'|] eqn:E'; [|discriminate].
    inversion H; subst ms; clear H.
    destruct (exec_global_some _ _ _ _ _ G E) as (H1 & H2 & H3).
    destruct (IH _ _ E') as (Hge & Hs).
    assert (Hgt : Forall (fun m' => index m < index m') ms').
    { eapply Forall_impl; [|exact Hge]. intros m' Hm'. simpl in Hm'.
      destruct (String.length (m0 m) =? 0) eqn:Z.
      - lia.
      - apply Nat.eqb_neq in Z. lia. }
    split.
    + constructor; [exact H1|]. eapply Forall_impl; [|exact Hgt]. simpl. lia.
    + simpl. constructor; [exact Hs|]. apply Forall_map. exact Hgt.
  - inversion H. split; constructor.
Qed.

Lemma ranges_nonempty (startOffset : nat) (ms : list MatchResult) :
  Forall (fun r => from r < to r) (map (range_of startOffset) (filter nonempty ms)).
Proof.
  apply Forall_map. apply Forall_forall. intros m Hm.
  apply filter_In in Hm. destruct Hm as [_ Hm]. unfold nonempty in Hm.
  apply Nat.ltb_lt in Hm. simpl. lia.
Qed.

(** C7: for every global expression (so for every pattern that can match
    the empty string) and every text of length L, the [while] loop of
    [updatePreview] ends: L+2 evaluations of its condition are enough, the
    body runs at most L+1 times, once per match the runtime's scanner
    enumerates. *)
Theorem scan_terminates_within (re : RegExp) (targetText : string) (startOffset fuel : nat) :
  global re = true ->
  String.length targetText + 2 <= fuel ->
  exists final n,
    scanLoop fuel re targetText startOffset scan_start = Some (final, n) /\
    n <= String.length targetText + 1 /\
    n = List.length (scan re targetText).
Proof.
  intros G Hf.
  destruct (scan_spec re targetText G) as [Hs Hl].
  apply scan_from_more_fuel with (fuel' := fuel) in Hs; [|exact Hf].
  destruct (scanLoop_scan_from re targetText startOffset fuel scan_start _ Hs)
    as (final & Hloop & _).
  exists final, (List.length (scan re targetText)). repeat split; assumption.
Qed.

(** The bound of C7 is reached: [x*] matches the empty string at each of the
    three positions of ["ab"]. *)
Lemma scan_terminates_within_witness :
  exists final n,
    scanLoop 4 (mini_RegExp "x*" "gm") "ab" 0 scan_start = Some (final, n) /\
    n <= 3 /\
    n = List.length (scan (mini_RegExp "x*" "gm") "ab").
Proof.
  apply (scan_terminates_within (mini_RegExp "x*" "gm") "ab" 0 4).
  - reflexivity.
  - simpl. lia.
Defined.

Example scan_bound_is_tight :
  option_map snd (scanLoop 4 (mini_RegExp "x*" "gm") "ab" 0 scan_start) = Some 3.
Proof. vm_compute. reflexivity. Qed.

(** ** [updatePreview] *)

Lemma has_g_getRegexFlags (st : RfrPluginSettings) :
  has_char "g"%char (getRegexFlags st) = true.
Proof. unfold getRegexFlags. destruct (caseInsensitive st); reflexivity. Qed.

Lemma updatePreview_disabled (CP : string -> string -> option Matcher) (fuel : nat)
    (regexFlags : string) (inp : ModalInputs) (w : World) :
  regToggleComponent inp = false \/ findInputComponent inp = EmptyString ->
  updatePreview CP fuel regexFlags inp w = (Returned (emptyPreview (InfoMatches 0)), w).
Proof.
  intros H. unfold updatePreview.
  destruct H as [H|H]; rewrite H; [reflexivity|].
  rewrite orb_true_r. reflexivity.
Qed.

Lemma updatePreview_invalid (CP : string -> string -> option Matcher) (fuel : nat)
    (regexFlags : string) (inp : ModalInputs) (w : World) :
  regToggleComponent inp = true ->
  findInputComponent inp <> EmptyString ->
  CP (findInputComponent inp) regexFlags = None ->
  updatePreview CP fuel regexFlags inp w =
    (Returned (emptyPreview InfoInvalidRegex), after_read (selToggleComponent inp) w).
Proof.
  intros Hr Hp Hc. unfold updatePreview. rewrite Hr.
  destruct (findInputComponent inp) as [|c p] eqn:Ep; [congruence|].
  simpl negb. simpl orb. cbv iota.
  unfold bind, try_catch, new_RegExp. rewrite Hc.
  destruct (selToggleComponent inp); reflexivity.
Qed.

Lemma updatePreview_compiled (CP : string -> string -> option Matcher) (fuel : nat)
    (regexFlags : string) (inp : ModalInputs) (w : World) (mt : Matcher) :
  regToggleComponent inp = true ->
  findInputComponent inp <> EmptyString ->
  has_char "g"%char regexFlags = true ->
  CP (findInputComponent inp) regexFlags = Some mt ->
  String.length (previewTarget inp w) + 2 <= fuel ->
  updatePreview CP fuel regexFlags inp w =
    (Returned (preview_of (previewOffset inp w)
                 (scan (mkRegExp true mt) (previewTarget inp w))),
     after_read (selToggleComponent inp) w).
Proof.
  intros Hr Hp Hg Hc Hf. unfold updatePreview. rewrite Hr.
  destruct (findInputComponent inp) as [|c p] eqn:Ep; [congruence|].
  simpl negb. simpl orb. cbv iota.
  unfold previewTarget, previewOffset in *.
  destruct (scan_spec (mkRegExp true mt) (if selToggleComponent inp
             then selected (editor w) else document (editor w)) eq_refl) as [Hs _].
  apply scan_from_more_fuel with (fuel' := fuel) in Hs; [|exact Hf].
  unfold bind, try_catch, new_RegExp. rewrite Hc, Hg.
  destruct (selToggleComponent inp); simpl;
    unfold runScan;
    match goal with
    | |- context [scanLoop fuel ?re ?t ?o ?s] =>
        destruct (scanLoop_scan_from re t o fuel s _ Hs) as (final & Hl & Hra & Hit)
    end;
    rewrite Hl; simpl in Hra, Hit; unfold ret, preview_of;
    rewrite Hra, Hit, !length_map; reflexivity.
Qed.

(** C2, as the code has it: for a pattern that compiles, the preview shows
    exactly the non-empty matches of the scanner's sequence, in scan order:
    they are the highlight ranges, their number is the displayed count and
    they fill the list.  The scanner's sequence has strictly increasing
    positions (each match, empty or not, is met once); every range shown is
    non-empty, so a zero-length match is never part of the output. *)
Theorem preview_shows_nonempty_matches (CP : string -> string -> option Matcher)
    (st : RfrPluginSettings) (inp : ModalInputs) (w : World) (mt : Matcher) (fuel : nat) :
  regToggleComponent inp = true ->
  findInputComponent inp <> EmptyString ->
  CP (findInputComponent inp) (getRegexFlags st) = Some mt ->
  String.length (previewTarget inp w) + 2 <= fuel ->
  let ms := scan (mkRegExp true mt) (previewTarget inp w) in
  let shown := filter nonempty ms in
  exists ui,
    fst (updatePreview CP fuel (getRegexFlags st) inp w) = Returned ui /\
    previewInfo ui = InfoMatches (List.length shown) /\
    highlights ui = map (range_of (previewOffset inp w)) shown /\
    previewList ui =
      renderEntries 0 (firstn limit (map (item_of (previewOffset inp w)) shown)) /\
    Forall (fun r => from r < to r) (highlights ui) /\
    StronglySorted lt (map index ms).
Proof.
  intros Hr Hp Hc Hf ms shown.
  exists (preview_of (previewOffset inp w) ms).
  rewrite (updatePreview_compiled CP fuel _ inp w mt Hr Hp (has_g_getRegexFlags st) Hc Hf).
  repeat split.
  - apply ranges_nonempty.
  - destruct (scan_spec (mkRegExp true mt) (previewTarget inp w) eq_refl) as [Hs _].
    apply (scan_from_increasing (mkRegExp true mt) _ eq_refl _ _ _ Hs).
Qed.

Lemma preview_shows_nonempty_matches_witness :
  let w := fresh_world "abba" in
  let inp := mkInputs "b*" "" true false in
  let ms := scan (mini_RegExp "b*" "gm") "abba" in
  let shown := filter nonempty ms in
  exists ui,
    fst (updatePreview MiniRegExp.compile 6 "gm" inp w) = Returned ui /\
    previewInfo ui = InfoMatches (List.length shown) /\
    highlights ui = map (range_of 0) shown /\
    previewList ui = renderEntries 0 (firstn limit (map (item_of 0) shown)) /\
    Forall (fun r => from r < to r) (highlights ui) /\
    StronglySorted lt (map index ms).
Proof.
  apply (preview_shows_nonempty_matches MiniRegExp.compile DEFAULT_SETTINGS
           (mkInputs "b*" "" true false) (fresh_world "abba")
           (matcher (mini_RegExp "b*" "gm")) 6).
  - reflexivity.
  - discriminate.
  - reflexivity.
  - simpl. lia.
Defined.

(** C2 fails as stated: on ["ab"] the pattern [x*] has three zero-length
    matches, at 0, 1 and 2, and the preview shows none of them: no range, no
    list row, "Matches: 0". *)
Lemma preview_drops_empty_matches :
  map (fun m => (index m, m0 m)) (scan (mini_RegExp "x*" "gm") "ab")
    = [(0, EmptyString); (1, EmptyString); (2, EmptyString)] /\
  fst (updatePreview MiniRegExp.compile 4 "gm" (mkInputs "x*" "" true false)
         (fresh_world "ab"))
    = Returned (mkUI (InfoMatches 0) [] [] None).
Proof. split; vm_compute; reflexivity. Qed.

(** C6, as the code has it: [updatePreview] always returns (it neither
    throws nor loops), leaves the editor's text, the settings and the
    notices alone and issues no write.  With regex mode off or an empty
    pattern it shows the empty preview under "Matches: 0", with no invalid
    mark; with a pattern that fails to compile it shows the empty preview
    under "Invalid regex". *)
Theorem preview_never_raises (CP : string -> string -> option Matcher)
    (st : RfrPluginSettings) (inp : ModalInputs) (w : World) (fuel : nat) :
  String.length (previewTarget inp w) + 2 <= fuel ->
  exists ui w',
    updatePreview CP fuel (getRegexFlags st) inp w = (Returned ui, w') /\
    same_text w w' /\
    writes (editor w') = writes (editor w) /\
    settings w' = settings w /\
    notices w' = notices w /\
    (regToggleComponent inp = false \/ findInputComponent inp = EmptyString ->
     ui = emptyPreview (InfoMatches 0)) /\
    (regToggleComponent inp = true -> findInputComponent inp <> EmptyString ->
     CP (findInputComponent inp) (getRegexFlags st) = None ->
     ui = emptyPreview InfoInvalidRegex).
Proof.
  intros Hf.
  assert (Hw : forall b, same_text w (after_read b w) /\
                         writes (editor (after_read b w)) = writes (editor w)).
  { intros b. unfold same_text, writes. simpl. rewrite filter_app, length_app.
    destruct b; simpl; repeat split; lia. }
  destruct (regToggleComponent inp) eqn:Hr.
  - destruct (string_dec (findInputComponent inp) EmptyString) as [Hp|Hp].
    + exists (emptyPreview (InfoMatches 0)), w.
      rewrite updatePreview_disabled by (right; exact Hp).
      unfold same_text. repeat split; congruence.
    + destruct (CP (findInputComponent inp) (getRegexFlags st)) as [mt|] eqn:Hc.
      * eexists; exists (after_read (selToggleComponent inp) w).
        rewrite (updatePreview_compiled CP fuel _ inp w mt Hr Hp
                   (has_g_getRegexFlags st) Hc Hf).
        destruct (Hw (selToggleComponent inp)) as [H1 H2].
        repeat split; try assumption; try apply H1.
        -- intros [H|H]; congruence.
        -- intros; congruence.
      * exists (emptyPreview InfoInvalidRegex), (after_read (selToggleComponent inp) w).
        rewrite (updatePreview_invalid CP fuel _ inp w Hr Hp Hc).
        destruct (Hw (selToggleComponent inp)) as [H1 H2].
        repeat split; try assumption; try apply H1.
        intros [H|H]; congruence.
  - exists (emptyPreview (InfoMatches 0)), w.
    rewrite updatePreview_disabled by (left; exact Hr).
    unfold same_text. repeat split; congruence.
Qed.

Lemma preview_never_raises_witness :
  exists ui w',
    updatePreview MiniRegExp.compile 4 "gm" (mkInputs "(" "" true false) (fresh_world "ab")
      = (Returned ui, w') /\
    same_text (fresh_world "ab") w' /\
    writes (editor w') = 0 /\
    settings w' = DEFAULT_SETTINGS /\
    notices w' = [] /\
    (true = false \/ "("%string = EmptyString -> ui = emptyPreview (InfoMatches 0)) /\
    (true = true -> "("%string <> EmptyString ->
     MiniRegExp.compile "(" "gm" = None -> ui = emptyPreview InfoInvalidRegex).
Proof.
  apply (preview_never_raises MiniRegExp.compile DEFAULT_SETTINGS
           (mkInputs "(" "" true false) (fresh_world "ab") 4).
  simpl. lia.
Defined.

(** C6 fails as stated: the empty pattern is shown as "Matches: 0", which is
    the display of a valid pattern without matches, not the invalid mark. *)
Lemma preview_empty_pattern_is_not_marked_invalid :
  fst (updatePreview MiniRegExp.compile 4 "gm" (mkInputs "" "" true false) (fresh_world "ab"))
    = Returned (mkUI (InfoMatches 0) [] [] None) /\
  fst (updatePreview MiniRegExp.compile 4 "gm" (mkInputs "(" "" true false) (fresh_world "ab"))
    = Returned (mkUI InfoInvalidRegex [] [] None).
Proof. split; vm_compute; reflexivity. Qed.

(** ** The transform engine *)

Ltac run :=
  unfold bind, ret, throw, getSettings, getValue, getSelection, setValue,
    replaceSelection, new_Notice, new_RegExp; simpl.

Lemma includes_In (names : list string) (n : string) :
  includes names n = true <-> In n names.
Proof.
  unfold includes. rewrite existsb_exists. split.
  - intros (x & Hx & He). apply String.eqb_eq in He. subst. exact Hx.
  - intros H. exists n. split; [exact H | apply String.eqb_refl].
Qed.

Lemma String_match_global (re : RegExp) (text : string) :
  global re = true ->
  match String_match text re with
  | Some hits => List.length hits = List.length (scan re text) /\ scan re text <> []
  | None => scan re text = []
  end.
Proof.
  intros G. unfold String_match. rewrite G.
  destruct (scan re text) as [|m ms]; [reflexivity|].
  split; [simpl; rewrite length_map; reflexivity | discriminate].
Qed.

Section Engine.

Variable CP : string -> string -> option Matcher.

Lemma batchLoop_world (exprs : list SavedExpression) :
  forall total text w, snd (batchLoop CP exprs total text w) = w.
Proof.
  induction exprs as [|e rest IH]; intros total text w; [reflexivity|].
  simpl. run. destruct (CP (pattern e) (flags e)) as [mt|]; simpl; [|reflexivity].
  destruct (String_match text _); apply IH.
Qed.

Lemma batchLoop_throws (exprs : list SavedExpression) :
  Exists (fun e => CP (pattern e) (flags e) = None) exprs ->
  forall total text w, exists err, fst (batchLoop CP exprs total text w) = Thrown err.
Proof.
  induction exprs as [|e rest IH]; intros H total text w.
  - inversion H.
  - simpl. run. destruct (CP (pattern e) (flags e)) as [mt|] eqn:E; simpl.
    + inversion H; subst; [congruence|].
      destruct (String_match text _); apply IH; assumption.
    + eexists; reflexivity.
Qed.


Lemma batchLoop_sequential (exprs : list SavedExpression) :
  Forall (fun e => requests_global e = true) exprs ->
  forall total text w,
    match sequential CP (settings w) text exprs with
    | Some (resultText, counts) =>
        batchLoop CP exprs total text w = (Returned (total + counts, resultText), w)
    | None => exists err, batchLoop CP exprs total text w = (Thrown err, w)
    end.
Proof.
  induction exprs as [|e rest IH]; intros H total text w.
  - simpl. run. rewrite Nat.add_0_r. reflexivity.
  - inversion H as [|? ? He Hrest]; subst. unfold requests_global in He.
    simpl. unfold applyOne. run.
    destruct (CP (pattern e) (flags e)) as [mt|] eqn:E; simpl.
    2:{ eexists; reflexivity. }
    rewrite He.
    pose proof (String_match_global (mkRegExp true mt) text eq_refl) as HM.
    destruct (String_match text (mkRegExp true mt)) as [hits|].
    + destruct HM as [HL HN].
      destruct (List.length (scan (mkRegExp true mt) text) =? 0) eqn:Z.
      { apply Nat.eqb_eq in Z. apply length_zero_iff_nil in Z. contradiction. }
      specialize (IH Hrest (total + List.length hits)
                    (String_replace text (mkRegExp true mt)
                       (processEscapes (settings w) (replace e))) w).
      destruct (sequential CP (settings w) _ rest) as [[resultText counts]|].
      * rewrite IH, HL, Nat.add_assoc. reflexivity.
      * exact IH.
    + rewrite HM. simpl.
      specialize (IH Hrest total text w).
      destruct (sequential CP (settings w) text rest) as [[resultText counts]|];
        exact IH.
Qed.


Lemma applyBatch_unfold (exprs : list SavedExpression) (w : World) :
  exprs <> [] ->
  applyBatch CP exprs w =
    match batchLoop CP exprs 0 (scopeText w) (after_read (selOnly (settings w)) w) with
    | (Returned r, w1) =>
        (Returned tt,
         with_notice (NoticeBatchApplied (List.length exprs) (fst r))
           (after_write (selOnly (settings w)) (snd r) w1))
    | (Thrown err, w1) => (Thrown err, w1)
    | (OutOfFuel, w1) => (OutOfFuel, w1)
    end.
Proof.
  intros Hne. unfold applyBatch.
  destruct (List.length exprs =? 0) eqn:Z.
  { apply Nat.eqb_eq, length_zero_iff_nil in Z. contradiction. }
  unfold scopeText, after_read, after_write, with_notice.
  pose proof (batchLoop_world exprs 0) as HW.
  run. destruct (selOnly (settings w)) eqn:S; run.
  - match goal with |- context [batchLoop CP ?es ?t ?x ?w0] =>
      specialize (HW x w0); destruct (batchLoop CP es t x w0) as [[r| |] w1] eqn:B
    end; simpl in HW; subst w1; simpl; try reflexivity.
    rewrite S. reflexivity.
  - match goal with |- context [batchLoop CP ?es ?t ?x ?w0] =>
      specialize (HW x w0); destruct (batchLoop CP es t x w0) as [[r| |] w1] eqn:B
    end; simpl in HW; subst w1; simpl; try reflexivity.
    rewrite S. reflexivity.
Qed.

End Engine.

Lemma applyGroup_unfold (CP : string -> string -> option Matcher)
    (group : ExpressionGroup) (w : World) :
  applyGroup CP group w =
    if List.length (resolve (settings w) group) =? 0
    then (Returned tt, with_notice (NoticePresetEmpty (group_name group)) w)
    else applyBatch CP (resolve (settings w) group) w.
Proof.
  unfold applyGroup, resolve. run.
  destruct (List.length _ =? 0); reflexivity.
Qed.

Lemma reads_after_read (b : bool) (w : World) :
  reads (editor (after_read b w)) = reads (editor w) + 1 /\
  writes (editor (after_read b w)) = writes (editor w).
Proof.
  unfold reads, writes. simpl. rewrite !filter_app, !length_app.
  destruct b; simpl; lia.
Qed.

Lemma writes_after_write (b : bool) (text : string) (w : World) :
  reads (editor (after_write b text w)) = reads (editor w) /\
  writes (editor (after_write b text w)) = writes (editor w) + 1.
Proof.
  unfold reads, writes. destruct b; simpl; rewrite !filter_app, !length_app; simpl; lia.
Qed.

Lemma editor_with_notice (n : Notice) (w : World) : editor (with_notice n w) = editor w.
Proof. reflexivity. Qed.

Lemma same_text_after_read (b : bool) (w : World) : same_text w (after_read b w).
Proof. unfold same_text. simpl. repeat split. Qed.




Lemma applyBatch_throws (CP : string -> string -> option Matcher)
    (exprs : list SavedExpression) (w : World) :
  Exists (fun e => CP (pattern e) (flags e) = None) exprs ->
  exists err, applyBatch CP exprs w = (Thrown err, after_read (selOnly (settings w)) w).
Proof.
  intros H.
  assert (Hne : exprs <> []) by (intros ->; inversion H).
  rewrite (applyBatch_unfold CP exprs w Hne).
  destruct (batchLoop_throws CP exprs H 0 (scopeText w)
              (after_read (selOnly (settings w)) w)) as [err He].
  pose proof (batchLoop_world CP exprs 0 (scopeText w)
                (after_read (selOnly (settings w)) w)) as Hw.
  destruct (batchLoop CP exprs 0 (scopeText w) _) as [r w1].
  simpl in He, Hw. subst. exists err. reflexivity.
Qed.

(** C3: when a member expression of an invocation (the expression itself,
    an expression of the batch, or a stored expression the group resolves
    to) fails to compile, the call throws; the editor's text is what it was,
    no write was issued, no notice shown and the settings are untouched:
    nothing of the batch is applied, whatever the earlier members matched. *)
Theorem compile_failure_aborts_without_mutation
    (CP : string -> string -> option Matcher) (inv : Invocation) (w : World) :
  Exists (fun e => CP (pattern e) (flags e) = None) (members (settings w) inv) ->
  exists err w',
    invoke CP inv w = (Thrown err, w') /\
    same_text w w' /\
    writes (editor w') = writes (editor w) /\
    notices w' = notices w /\
    settings w' = settings w.
Proof.
  intros H. destruct inv as [expr|exprs|group]; simpl in H |- *.
  - inversion H as [? ? He|? ? He]; subst; [|inversion He].
    exists (SyntaxError (pattern expr) (flags expr)), w.
    unfold applyExpression. run. rewrite He. unfold same_text. repeat split.
  - destruct (applyBatch_throws CP exprs w H) as [err He].
    exists err, (after_read (selOnly (settings w)) w). rewrite He.
    repeat split; try apply same_text_after_read. apply reads_after_read.
  - rewrite applyGroup_unfold.
    destruct (List.length (resolve (settings w) group) =? 0) eqn:Z.
    { apply Nat.eqb_eq, length_zero_iff_nil in Z. rewrite Z in H. inversion H. }
    destruct (applyBatch_throws CP _ w H) as [err He].
    exists err, (after_read (selOnly (settings w)) w). rewrite He.
    repeat split; try apply same_text_after_read. apply reads_after_read.
Qed.

(** A batch whose first member rewrites the text and whose second member
    does not compile leaves the document as it was. *)
Lemma compile_failure_aborts_without_mutation_witness :
  exists err w',
    invoke MiniRegExp.compile
      (ApplyBatch [expression_A; mkExpr "broken" "(" "gm" ""]) (fresh_world "foo")
      = (Thrown err, w') /\
    same_text (fresh_world "foo") w' /\
    writes (editor w') = 0 /\
    notices w' = [] /\
    settings w' = DEFAULT_SETTINGS.
Proof.
  apply (compile_failure_aborts_without_mutation MiniRegExp.compile
           (ApplyBatch [expression_A; mkExpr "broken" "(" "gm" ""]) (fresh_world "foo")).
  simpl. apply Exists_cons_tl. apply Exists_cons_hd. reflexivity.
Defined.





(** ** Groups *)

Lemma resolve_In (st : RfrPluginSettings) (group : ExpressionGroup) (e : SavedExpression) :
  In e (resolve st group) <-> In e (savedExpressions st) /\ In (name e) (items group).
Proof. unfold resolve. rewrite filter_In, includes_In. reflexivity. Qed.

Lemma resolve_same_names (st : RfrPluginSettings) (g g' : ExpressionGroup) :
  (forall n, In n (items g) <-> In n (items g')) ->
  resolve st g = resolve st g'.
Proof.
  intros H. unfold resolve. apply filter_ext. intros e.
  destruct (includes (items g) (name e)) eqn:E1, (includes (items g') (name e)) eqn:E2;
    try reflexivity.
  - apply includes_In, H, includes_In in E1. congruence.
  - apply includes_In, H, includes_In in E2. congruence.
Qed.

Lemma resolve_dangling (st : RfrPluginSettings) (gname x y : string) :
  (forall e, In e (savedExpressions st) -> name e <> y) ->
  resolve st (mkGroup gname [x; y]) =
    filter (fun e => String.eqb (name e) x) (savedExpressions st).
Proof.
  intros H. unfold resolve. apply filter_ext_in. intros e He.
  unfold includes. simpl. specialize (H e He).
  apply String.eqb_neq in H. rewrite H, !orb_false_r. reflexivity.
Qed.

(** C5: [applyGroup] takes the stored expressions whose name occurs in
    [group.items]; a name with no stored expression contributes nothing and
    raises nothing.  When none is left it shows the empty-preset notice and
    touches neither the editor nor the settings; otherwise it is
    [applyBatch] on the resolved list.  In particular a group [x, y] whose
    [y] is not in the store acts as the batch of the stored expressions
    named [x]. *)
Theorem applyGroup_resolves_against_store
    (CP : string -> string -> option Matcher) (group : ExpressionGroup) (w : World) :
  let st := settings w in
  let exprs := resolve st group in
  (forall e, In e exprs <-> In e (savedExpressions st) /\ In (name e) (items group)) /\
  (exprs = [] ->
   applyGroup CP group w =
     (Returned tt, with_notice (NoticePresetEmpty (group_name group)) w)) /\
  (exprs <> [] -> applyGroup CP group w = applyBatch CP exprs w) /\
  (forall x y,
      (forall e, In e (savedExpressions st) -> name e <> y) ->
      let named_x := filter (fun e => String.eqb (name e) x) (savedExpressions st) in
      resolve st (mkGroup (group_name group) [x; y]) = named_x /\
      (named_x <> [] ->
       applyGroup CP (mkGroup (group_name group) [x; y]) w = applyBatch CP named_x w)).
Proof.
  intros st exprs. split; [|split; [|split]].
  - intros e. apply resolve_In.
  - intros H. rewrite applyGroup_unfold. fold st exprs. rewrite H. reflexivity.
  - intros H. rewrite applyGroup_unfold. fold st exprs.
    destruct (List.length exprs =? 0) eqn:Z; [|reflexivity].
    apply Nat.eqb_eq, length_zero_iff_nil in Z. contradiction.
  - intros x y Hy named_x.
    pose proof (resolve_dangling st (group_name group) x y Hy) as HR.
    split; [exact HR|]. intros Hne.
    rewrite applyGroup_unfold. fold st. rewrite HR. fold named_x.
    destruct (List.length named_x =? 0) eqn:Z; [|reflexivity].
    apply Nat.eqb_eq, length_zero_iff_nil in Z. contradiction.
Qed.

Lemma applyGroup_resolves_against_store_witness :
  let X := mkExpr "X" "foo" "gm" "bar" in
  let w := mkWorld (mkEditor "" "" "foo" []) (with_expressions DEFAULT_SETTINGS [X]) [] in
  resolve (settings w) (mkGroup "G" ["X"; "Y"]%string) = [X] /\
  ([X] <> [] ->
   applyGroup MiniRegExp.compile (mkGroup "G" ["X"; "Y"]%string) w =
     applyBatch MiniRegExp.compile [X] w).
Proof.
  intros X w.
  refine (proj2 (proj2 (proj2
            (applyGroup_resolves_against_store MiniRegExp.compile
               (mkGroup "G" ["X"; "Y"]%string) w))) "X"%string "Y"%string _).
  intros e [<-|[]]. discriminate.
Defined.

(** The dangling-reference example of the specification: X and Y are
    stored, the group G names both, Y is deleted; running G is then running
    the batch [X]. *)
Example group_with_deleted_member :
  let X := mkExpr "X" "foo" "gm" "bar" in
  let Y := mkExpr "Y" "bar" "gm" "baz" in
  let G := mkGroup "G" ["X"; "Y"]%string in
  let w := mkWorld (mkEditor "" "" "foo" []) (with_expressions DEFAULT_SETTINGS [X; Y]) [] in
  let w' := snd (deleteExpressionByName "Y" w) in
  savedExpressions (settings w') = [X] /\
  applyGroup MiniRegExp.compile G w' = applyBatch MiniRegExp.compile [X] w' /\
  document (editor (snd (applyGroup MiniRegExp.compile G w'))) = "bar"%string /\
  document (editor (snd (applyGroup MiniRegExp.compile G w))) = "baz"%string.
Proof. repeat split; vm_compute; reflexivity. Qed.

(** C10: two groups of the same name whose [items] hold the same names, in
    any order and with any repetition, give the same run: same result,
    same final text, same notice. *)
Theorem applyGroup_ignores_item_order
    (CP : string -> string -> option Matcher) (g g' : ExpressionGroup) (w : World) :
  group_name g = group_name g' ->
  (forall n, In n (items g) <-> In n (items g')) ->
  applyGroup CP g w = applyGroup CP g' w.
Proof.
  intros Hn Hi. rewrite !applyGroup_unfold.
  rewrite (resolve_same_names (settings w) g g' Hi), Hn. reflexivity.
Qed.

Lemma applyGroup_ignores_item_order_witness :
  let X := mkExpr "X" "foo" "gm" "bar" in
  let Y := mkExpr "Y" "bar" "gm" "baz" in
  let w := mkWorld (mkEditor "" "" "foo" []) (with_expressions DEFAULT_SETTINGS [X; Y]) [] in
  applyGroup MiniRegExp.compile (mkGroup "G" ["X"; "Y"]%string) w =
  applyGroup MiniRegExp.compile (mkGroup "G" ["Y"; "X"; "Y"]%string) w.
Proof.
  intros X Y w.
  apply (applyGroup_ignores_item_order MiniRegExp.compile
           (mkGroup "G" ["X"; "Y"]%string) (mkGroup "G" ["Y"; "X"; "Y"]%string) w).
  - reflexivity.
  - intros n. simpl. tauto.
Defined.

(** The store's order decides: the group [Y, X] runs X before Y. *)
Example group_runs_in_store_order :
  let X := mkExpr "X" "foo" "gm" "bar" in
  let Y := mkExpr "Y" "bar" "gm" "baz" in
  let w := mkWorld (mkEditor "" "" "foo" []) (with_expressions DEFAULT_SETTINGS [X; Y]) [] in
  snd (applyGroup MiniRegExp.compile (mkGroup "G" ["Y"; "X"]%string) w) =
    mkWorld (mkEditor "" "" "baz" [GetValue; SetValue "baz"])
      (with_expressions DEFAULT_SETTINGS [X; Y]) [NoticeBatchApplied 2 2].
Proof. vm_compute. reflexivity. Qed.

(** ** Strings *)

Lemma append_nil_r (s : string) : s +++ EmptyString = s.
Proof. induction s as [|a s IH]; simpl; [reflexivity | rewrite IH; reflexivity]. Qed.

Lemma append_assoc (s t u : string) : (s +++ t) +++ u = s +++ t +++ u.
Proof. induction s as [|a s IH]; simpl; [reflexivity | rewrite IH; reflexivity]. Qed.

Lemma length_append (s t : string) :
  String.length (s +++ t) = String.length s + String.length t.
Proof. induction s as [|a s IH]; simpl; [reflexivity | rewrite IH; reflexivity]. Qed.

Lemma drop_nil (i : nat) : drop i EmptyString = EmptyString.
Proof. destruct i; reflexivity. Qed.

Lemma length_drop (i : nat) (s : string) :
  String.length (drop i s) = String.length s - i.
Proof.
  revert s. induction i as [|i IH]; intros s; simpl.
  - rewrite Nat.sub_0_r. reflexivity.
  - destruct s as [|a s]; simpl; [reflexivity | apply IH].
Qed.

Lemma drop_drop (i j : nat) (s : string) : drop j (drop i s) = drop (i + j) s.
Proof.
  revert s. induction i as [|i IH]; intros s; simpl.
  - reflexivity.
  - destruct s as [|a s]; [apply drop_nil | apply IH].
Qed.

Lemma drop_append (s t : string) : drop (String.length s) (s +++ t) = t.
Proof. induction s as [|a s IH]; simpl; [reflexivity | exact IH]. Qed.

Lemma substring_drop (i n : nat) (s : string) :
  String.substring i n s = String.substring 0 n (drop i s).
Proof.
  revert s. induction i as [|i IH]; intros s.
  - reflexivity.
  - destruct s as [|a s]; simpl.
    + destruct n; reflexivity.
    + apply IH.
Qed.

Lemma take_drop (n : nat) (s : string) : String.substring 0 n s +++ drop n s = s.
Proof.
  revert s. induction n as [|n IH]; intros s.
  - destruct s; reflexivity.
  - destruct s as [|a s]; simpl; [reflexivity | rewrite IH; reflexivity].
Qed.

Lemma prefix_split (p s : string) :
  String.prefix p s = true -> s = p +++ drop (String.length p) s.
Proof.
  revert s. induction p as [|a p IH]; intros s H.
  - reflexivity.
  - destruct s as [|b s]; simpl in H; [discriminate|].
    destruct (Ascii.ascii_dec a b) as [->|]; [|discriminate].
    simpl. rewrite <- (IH s H). reflexivity.
Qed.


(** ** [split] and [join] *)







(** ** Escape sequences in the replacement string *)

Definition starts_with (c : ascii) (s : string) : bool :=
  match s with
  | String b _ => Ascii.eqb b c
  | EmptyString => false
  end.

Lemma prefix_escape (c a : ascii) (t : string) :
  String.prefix (escape c) (String a t) = Ascii.eqb a BACKSLASH && starts_with c t.
Proof.
  unfold escape. cbn [String.prefix].
  destruct (Ascii.ascii_dec BACKSLASH a) as [<-|Ha].
  - rewrite Ascii.eqb_refl. cbn [andb]. destruct t as [|b t]; [reflexivity|].
    cbn [String.prefix starts_with].
    destruct (Ascii.ascii_dec c b) as [<-|Hb].
    + rewrite Ascii.eqb_refl. destruct t; reflexivity.
    + symmetry. apply Ascii.eqb_neq. congruence.
  - replace (Ascii.eqb a BACKSLASH) with false; [reflexivity|].
    symmetry. apply Ascii.eqb_neq. congruence.
Qed.

Lemma drop_beyond (i : nat) (s : string) : String.length s <= i -> drop i s = EmptyString.
Proof.
  intros H. pose proof (length_drop i s) as L.
  destruct (drop i s); [reflexivity | simpl in L; lia].
Qed.

Lemma drop_succ (i : nat) (s : string) (a : ascii) (rest : string) :
  drop i s = String a rest -> drop (S i) s = rest.
Proof. intros H. rewrite <- Nat.add_1_r, <- drop_drop, H. reflexivity. Qed.

Lemma search_first_escape (c : ascii) (input : string) :
  forall n i,
    drop i input = EmptyString \/ String.length (drop i input) < n ->
    search (backslash_matcher c) input i n =
      option_map (fun k => mkMatch (i + k) (String.substring (i + k) 2 input) [])
                 (first_escape c (drop i input)).
Proof.
  induction n as [|n IH]; intros i H.
  - destruct H as [H|H]; [|lia]. rewrite H. reflexivity.
  - simpl search. unfold backslash_matcher at 1. fold (escape c).
    destruct (drop i input) as [|a rest] eqn:D.
    + simpl. rewrite IH.
      * rewrite (drop_beyond (S i) input); [reflexivity|].
        pose proof (length_drop i input) as L. rewrite D in L. simpl in L. lia.
      * left. apply drop_beyond.
        pose proof (length_drop i input) as L. rewrite D in L. simpl in L. lia.
    + cbn [first_escape]. destruct (String.prefix (escape c) (String a rest)).
      * simpl. rewrite Nat.add_0_r. reflexivity.
      * rewrite IH.
        -- rewrite (drop_succ i input a rest D).
           destruct (first_escape c rest) as [k|]; simpl; [|reflexivity].
           rewrite Nat.add_succ_r. reflexivity.
        -- right. rewrite (drop_succ i input a rest D).
           destruct H as [H|H]; [discriminate | simpl in H; lia].
Qed.

Lemma first_escape_some (c : ascii) (s : string) :
  forall k, first_escape c s = Some k ->
    String.prefix (escape c) (drop k s) = true /\ k + 2 <= String.length s.
Proof.
  induction s as [|a s IH]; intros k H; [discriminate|].
  cbn [first_escape] in H.
  destruct (String.prefix (escape c) (String a s)) eqn:P.
  - inversion H; subst. split; [exact P|].
    apply prefix_split in P. rewrite P, length_append. simpl. lia.
  - destruct (first_escape c s) as [k'|]; [|discriminate].
    inversion H; subst. destruct (IH k' eq_refl) as [H1 H2].
    split; [exact H1 | simpl; lia].
Qed.

Lemma expand_no_escape (c r : ascii) (s : string) :
  first_escape c s = None -> expand c r s = s.
Proof.
  induction s as [|a s IH]; intros H; [reflexivity|].
  cbn [first_escape] in H. rewrite prefix_escape in H.
  destruct (Ascii.eqb a BACKSLASH && starts_with c s) eqn:P; [discriminate|].
  destruct (first_escape c s); [discriminate|].
  cbn [expand]. destruct (Ascii.eqb a BACKSLASH); simpl in P.
  - destruct s as [|b s']; [reflexivity|]. simpl in P. rewrite P.
    rewrite IH by reflexivity. reflexivity.
  - rewrite IH by reflexivity. reflexivity.
Qed.

Lemma expand_first_escape (c r : ascii) (s : string) :
  forall k, first_escape c s = Some k ->
    expand c r s = String.substring 0 k s +++ String r (expand c r (drop (k + 2) s)).
Proof.
  induction s as [|a s IH]; intros k H; [discriminate|].
  cbn [first_escape] in H. rewrite prefix_escape in H.
  destruct (Ascii.eqb a BACKSLASH && starts_with c s) eqn:P.
  - inversion H; subst. apply andb_prop in P. destruct P as [P1 P2].
    destruct s as [|b s']; [discriminate|]. simpl in P2.
    cbn [expand]. rewrite P1, P2. reflexivity.
  - destruct (first_escape c s) as [k'|] eqn:F; [|discriminate].
    inversion H; subst. specialize (IH k' eq_refl).
    cbn [expand]. destruct (Ascii.eqb a BACKSLASH); simpl in P.
    + destruct s as [|b s']; [discriminate|]. simpl in P. rewrite P.
      rewrite IH. reflexivity.
    + rewrite IH. reflexivity.
Qed.

Lemma GetSubstitution_single (matched str : string) (position : nat) (caps : Captures)
    (r : ascii) :
  GetSubstitution matched str position caps (String r EmptyString) = String r EmptyString.
Proof. simpl. destruct (Ascii.eqb r DOLLAR); reflexivity. Qed.

Lemma splice_scan_backslash (c r : ascii) (input : string) :
  forall fuel i ms acc,
    scan_from fuel (mkRegExp true (backslash_matcher c)) input i = Some ms ->
    splice input (String r EmptyString) ms i acc = acc +++ expand c r (drop i input).
Proof.
  induction fuel as [|fuel IH]; intros i ms acc H; [discriminate|].
  cbn [scan_from] in H. unfold exec in H. cbn [global matcher] in H.
  rewrite search_first_escape in H.
  2:{ destruct (Nat.le_gt_cases (String.length input) i) as [L|L].
      - left. apply drop_beyond. exact L.
      - right. rewrite length_drop. lia. }
  destruct (first_escape c (drop i input)) as [k|] eqn:F; cbn [option_map] in H.
  - destruct (first_escape_some c _ k F) as [P L].
    rewrite length_drop in L. rewrite drop_drop in P.
    assert (M0 : String.substring (i + k) 2 input = escape c).
    { rewrite substring_drop. apply prefix_split in P. rewrite P.
      generalize (drop (String.length (escape c)) (drop (i + k) input)).
      intros rest. destruct rest; reflexivity. }
    cbn [index m0] in H. rewrite M0 in H. cbn [String.length escape Nat.eqb] in H.
    destruct (scan_from fuel _ input (i + k + 2)) as [ms'|] eqn:E; [|discriminate].
    inversion H; subst ms; clear H.
    cbn [splice index m0 captures].
    rewrite Nat.min_l by lia.
    replace (i <=? i + k) with true by (symmetry; apply Nat.leb_le; lia).
    rewrite GetSubstitution_single.
    cbn [String.length escape].
    rewrite (IH _ _ _ E).
    rewrite (expand_first_escape c r _ k F), drop_drop.
    unfold slice. replace (i + k - i) with k by lia.
    rewrite (substring_drop i k input), Nat.add_assoc, !append_assoc. reflexivity.
  - inversion H; subst ms. cbn [splice].
    rewrite (expand_no_escape c r _ F). reflexivity.
Qed.

(** [s.replace(/\\c/gm, r)] for a one-character replacement [r]. *)
Lemma String_replace_backslash (c r : ascii) (s : string) :
  String_replace s (mkRegExp true (backslash_matcher c)) (String r EmptyString)
    = expand c r s.
Proof.
  unfold String_replace. cbn [global].
  destruct (scan_spec (mkRegExp true (backslash_matcher c)) s eq_refl) as [H _].
  rewrite (splice_scan_backslash c r s _ 0 _ EmptyString H). reflexivity.
Qed.

Lemma processEscapes_expand (st : RfrPluginSettings) (template : string) :
  processEscapes st template =
    let broken := if processLineBreak st then expand "n" LF template else template in
    if processTab st then expand "t" TAB broken else broken.
Proof.
  unfold processEscapes, re_backslash_n, re_backslash_t.
  destruct (processLineBreak st), (processTab st); cbv zeta;
    rewrite ?String_replace_backslash; reflexivity.
Qed.

(** [expand] distributes over a cut that the next character does not turn
    into an escape. *)
Lemma expand_append (c r : ascii) (q : string) :
  starts_with c q = false ->
  forall n p, String.length p <= n ->
    expand c r (p +++ q) = expand c r p +++ expand c r q.
Proof.
  intros Hq. induction n as [|n IH]; intros p Hn.
  - destruct p; [reflexivity | simpl in Hn; lia].
  - destruct p as [|a p']; [reflexivity|].
    simpl in Hn. cbn [append expand].
    destruct (Ascii.eqb a BACKSLASH) eqn:A.
    + destruct p' as [|b p''].
      * cbn [append]. destruct q as [|b q']; [reflexivity|].
        simpl in Hq. rewrite Hq. reflexivity.
      * cbn [append]. destruct (Ascii.eqb b c).
        -- rewrite IH by (simpl in Hn; lia). reflexivity.
        -- change (String b (p'' +++ q)) with (String b p'' +++ q).
           rewrite IH by lia. reflexivity.
    + rewrite IH by lia. reflexivity.
Qed.

Lemma starts_with_expand (c c' r' : ascii) (s : string) :
  starts_with c (expand c' r' s) = true -> starts_with c s = true \/ r' = c.
Proof.
  destruct s as [|a s']; [discriminate|]. cbn [expand].
  destruct (Ascii.eqb a BACKSLASH).
  - destruct s' as [|b s'']; [intros H; left; exact H|].
    destruct (Ascii.eqb b c'); simpl; intros H.
    + right. apply Ascii.eqb_eq. exact H.
    + left. exact H.
  - intros H. left. exact H.
Qed.

Lemma has_escape_cons (c a : ascii) (t : string) :
  has_escape c (String a t) =
    (Ascii.eqb a BACKSLASH && starts_with c t) || has_escape c t.
Proof. cbn [has_escape]. rewrite prefix_escape. reflexivity. Qed.

(** Replacing the escapes of [c'] by [r'] leaves no escape of [c], when
    there was none or when [c' = c], as long as [r'] is neither a backslash
    nor [c]. *)
Lemma has_escape_expand (c c' r' : ascii) :
  r' <> BACKSLASH -> r' <> c ->
  forall n s, String.length s <= n ->
    c' = c \/ has_escape c s = false ->
    has_escape c (expand c' r' s) = false.
Proof.
  intros Hr1 Hr2. induction n as [|n IH]; intros s Hn H.
  - destruct s; [reflexivity | simpl in Hn; lia].
  - destruct s as [|a s']; [reflexivity|]. simpl in Hn.
    assert (Ht : c' = c \/ has_escape c s' = false).
    { destruct H as [H|H]; [left; exact H|]. right.
      rewrite has_escape_cons in H. apply orb_false_elim in H. apply H. }
    cbn [expand]. destruct (Ascii.eqb a BACKSLASH) eqn:A.
    + destruct s' as [|b s''].
      * rewrite has_escape_cons. simpl. rewrite andb_false_r. reflexivity.
      * destruct (Ascii.eqb b c') eqn:B.
        -- rewrite has_escape_cons.
           replace (Ascii.eqb r' BACKSLASH) with false
             by (symmetry; apply Ascii.eqb_neq; exact Hr1).
           simpl. apply IH; [simpl in Hn; lia|].
           destruct Ht as [Ht|Ht]; [left; exact Ht|]. right.
           rewrite has_escape_cons in Ht. apply orb_false_elim in Ht. apply Ht.
        -- rewrite has_escape_cons, A. cbn [andb].
           rewrite (IH (String b s'')) by (try lia; exact Ht).
           rewrite orb_false_r.
           destruct (starts_with c (expand c' r' (String b s''))) eqn:S; [|reflexivity].
           apply starts_with_expand in S. destruct S as [S|S]; [|contradiction].
           simpl in S. apply Ascii.eqb_eq in S. subst b.
           destruct H as [H|H].
           ++ subst c'. rewrite Ascii.eqb_refl in B. discriminate.
           ++ rewrite has_escape_cons, A in H. simpl in H.
              rewrite Ascii.eqb_refl in H. discriminate.
    + rewrite has_escape_cons, A. simpl. apply IH; [lia | exact Ht].
Qed.

Lemma expand_escape_here (c r : ascii) (s : string) :
  expand c r (escape c +++ s) = String r (expand c r s).
Proof.
  unfold escape. cbn [append expand]. rewrite !Ascii.eqb_refl. reflexivity.
Qed.

Lemma expand_plain_char (c r d : ascii) (s : string) :
  d <> BACKSLASH -> expand c r (String d s) = String d (expand c r s).
Proof.
  intros H. cbn [expand]. apply Ascii.eqb_neq in H. rewrite H. reflexivity.
Qed.

Lemma LF_not_backslash : LF <> BACKSLASH.
Proof. apply Ascii.eqb_neq. reflexivity. Qed.

Lemma TAB_not_backslash : TAB <> BACKSLASH.
Proof. apply Ascii.eqb_neq. reflexivity. Qed.

(** C9: with line-break expansion on, the resolved template is the template
    with every backslash-n replaced by a line break and then, when tab
    expansion is on too, every backslash-t replaced by a tab, in that order;
    no backslash-n is left in it; and wherever the template has a
    backslash-n the resolved template has a line break, between the resolved
    halves. *)
Theorem escapes_resolved (st : RfrPluginSettings) (template : string) :
  processLineBreak st = true ->
  processEscapes st template =
    (if processTab st then expand "t" TAB (expand "n" LF template)
     else expand "n" LF template) /\
  has_escape "n" (processEscapes st template) = false /\
  (forall p s,
      template = p +++ escape "n" +++ s ->
      processEscapes st template =
        processEscapes st p +++ String LF (processEscapes st s)).
Proof.
  intros HL.
  assert (E : forall t, processEscapes st t =
                        if processTab st then expand "t" TAB (expand "n" LF t)
                        else expand "n" LF t).
  { intros t. rewrite processEscapes_expand, HL. reflexivity. }
  assert (N : forall t, has_escape "n" (expand "n" LF t) = false).
  { intros t. apply (has_escape_expand "n" "n" LF LF_not_backslash) with (n := String.length t).
    - apply Ascii.eqb_neq. reflexivity.
    - apply Nat.le_refl.
    - left. reflexivity. }
  split; [apply E|]. split.
  - rewrite E. destruct (processTab st); [|apply N].
    apply (has_escape_expand "n" "t" TAB TAB_not_backslash)
      with (n := String.length (expand "n" LF template)).
    + apply Ascii.eqb_neq. reflexivity.
    + apply Nat.le_refl.
    + right. apply N.
  - intros p s ->. rewrite !E.
    assert (D : expand "n" LF (p +++ escape "n" +++ s) =
                expand "n" LF p +++ String LF (expand "n" LF s)).
    { rewrite (expand_append "n" LF (escape "n" +++ s)) with (n := String.length p).
      - rewrite expand_escape_here. reflexivity.
      - reflexivity.
      - apply Nat.le_refl. }
    rewrite D. destruct (processTab st); [|reflexivity].
    rewrite (expand_append "t" TAB (String LF (expand "n" LF s)))
      with (n := String.length (expand "n" LF p)).
    + rewrite (expand_plain_char "t" TAB LF _ LF_not_backslash). reflexivity.
    + reflexivity.
    + apply Nat.le_refl.
Qed.

Lemma escapes_resolved_witness :
  let st := mkSettings "" "" true false false true true false [] [] in
  let template := String "a" (escape "n" +++ String "b" (escape "t" +++ "c")) in
  processEscapes st template =
    expand "t" TAB (expand "n" LF template) /\
  has_escape "n" (processEscapes st template) = false /\
  (forall p s,
      template = p +++ escape "n" +++ s ->
      processEscapes st template =
        processEscapes st p +++ String LF (processEscapes st s)).
Proof.
  intros st template.
  apply (escapes_resolved st template). reflexivity.
Defined.

Example escapes_resolved_value :
  processEscapes (mkSettings "" "" true false false true true false [] [])
    (String "a" (escape "n" +++ String "b" (escape "t" +++ "c")))
  = String "a" (String LF (String "b" (String TAB "c"))).
Proof. vm_compute. reflexivity. Qed.

(** * Further properties of the code *)

(** ** Matches are disjoint and inside the text *)

Lemma length_substring_le (i n : nat) (s : string) :
  String.length (String.substring i n s) <= String.length s - i.
Proof.
  revert i n. induction s as [|a s IH]; intros i n.
  - destruct i, n; simpl; lia.
  - destruct i as [|i].
    + destruct n as [|n]; simpl; [lia|]. specialize (IH 0 n). lia.
    + simpl. apply IH.
Qed.

Lemma search_inside (mt : Matcher) (input : string) (n i : nat) (m : MatchResult) :
  search mt input i n = Some m ->
  String.length (m0 m) <= String.length input - index m.
Proof.
  revert i. induction n as [|n IH]; intros i H; simpl in H; [discriminate|].
  destruct (mt input i) as [[len caps]|].
  - inversion H; subst; simpl. apply length_substring_le.
  - apply IH in H. exact H.
Qed.

Lemma exec_global_inside (re : RegExp) (input : string) (li li' : nat) (m : MatchResult) :
  global re = true ->
  exec re input li = (Some m, li') ->
  index m + String.length (m0 m) <= String.length input.
Proof.
  intros G H. pose proof H as H'. apply exec_global_some in H'; [|exact G].
  unfold exec in H. rewrite G in H.
  destruct (search (matcher re) input li (S (String.length input) - li)) as [m'|] eqn:E;
    [|discriminate].
  inversion H; subst. apply search_inside in E. lia.
Qed.

Lemma scan_from_disjoint (re : RegExp) (input : string) :
  global re = true ->
  forall fuel li ms,
    scan_from fuel re input li = Some ms ->
    Forall (fun m => li <= index m /\
                     index m + String.length (m0 m) <= String.length input) ms /\
    StronglySorted match_before ms.
Proof.
  intros G. induction fuel as [|fuel IH]; intros li ms H; [discriminate|].
  simpl in H. destruct (exec re input li) as [[m|] li'] eqn:E.
  - destruct (scan_from fuel re input _) as [ms'|] eqn:E'; [|discriminate].
    inversion H; subst ms; clear H.
    destruct (exec_global_some _ _ _ _ _ G E) as (H1 & H2 & H3).
    pose proof (exec_global_inside _ _ _ _ _ G E) as H4.
    destruct (IH _ _ E') as (Hin & Hs).
    assert (Hnext : li' <= if String.length (m0 m) =? 0 then S li' else li')
      by (destruct (String.length (m0 m) =? 0); lia).
    split.
    + constructor; [split; assumption|].
      eapply Forall_impl; [|exact Hin]. simpl. intros m' [A B]. split; lia.
    + constructor; [exact Hs|].
      eapply Forall_impl; [|exact Hin]. unfold match_before. intros m' [A B]. lia.
  - inversion H. split; constructor.
Qed.

Lemma StronglySorted_filter {A : Type} (R : A -> A -> Prop) (p : A -> bool) (l : list A) :
  StronglySorted R l -> StronglySorted R (filter p l).
Proof.
  induction 1 as [|a l Hs IH Hf]; simpl; [constructor|].
  destruct (p a); [|exact IH].
  constructor; [exact IH|].
  apply Forall_forall. intros x Hx. apply filter_In in Hx.
  rewrite Forall_forall in Hf. apply Hf, Hx.
Qed.

Lemma StronglySorted_map {A B : Type} (R : A -> A -> Prop) (Q : B -> B -> Prop)
    (f : A -> B) (l : list A) :
  (forall x y, R x y -> Q (f x) (f y)) ->
  StronglySorted R l -> StronglySorted Q (map f l).
Proof.
  intros HRQ. induction 1 as [|a l Hs IH Hf]; simpl; constructor; [exact IH|].
  apply Forall_map. eapply Forall_impl; [|exact Hf]. intros x. apply HRQ.
Qed.

(** X1: the ranges [updatePreview] hands to the highlighter are in document
    order and do not overlap, and each of them is a non-empty part of the
    scanned text: it starts at or after the scan offset (0, or the start of
    the selection) and ends at or before the end of the scanned text. *)
Theorem preview_ranges_ordered_inside_scope (CP : string -> string -> option Matcher)
    (st : RfrPluginSettings) (inp : ModalInputs) (w : World) (mt : Matcher) (fuel : nat) :
  regToggleComponent inp = true ->
  findInputComponent inp <> EmptyString ->
  CP (findInputComponent inp) (getRegexFlags st) = Some mt ->
  String.length (previewTarget inp w) + 2 <= fuel ->
  exists ui,
    fst (updatePreview CP fuel (getRegexFlags st) inp w) = Returned ui /\
    StronglySorted range_before (highlights ui) /\
    Forall (fun r => previewOffset inp w <= from r /\ from r < to r /\
                     to r <= previewOffset inp w + String.length (previewTarget inp w))
           (highlights ui).
Proof.
  intros Hr Hp Hc Hf.
  exists (preview_of (previewOffset inp w)
            (scan (mkRegExp true mt) (previewTarget inp w))).
  rewrite (updatePreview_compiled CP fuel _ inp w mt Hr Hp (has_g_getRegexFlags st) Hc Hf).
  destruct (scan_spec (mkRegExp true mt) (previewTarget inp w) eq_refl) as [Hs _].
  destruct (scan_from_disjoint (mkRegExp true mt) _ eq_refl _ _ _ Hs) as [Hin Hd].
  split; [reflexivity|]. unfold preview_of. cbn [highlights]. split.
  - apply StronglySorted_map with (R := match_before).
    + unfold match_before, range_before. intros x y H. simpl. lia.
    + apply StronglySorted_filter. exact Hd.
  - apply Forall_map. apply Forall_forall. intros m Hm.
    apply filter_In in Hm. destruct Hm as [Hm Hne].
    rewrite Forall_forall in Hin. destruct (Hin m Hm) as [_ Hb].
    unfold nonempty in Hne. apply Nat.ltb_lt in Hne. simpl. lia.
Qed.

Lemma preview_ranges_ordered_inside_scope_witness :
  exists ui,
    fst (updatePreview MiniRegExp.compile 8 "gm" (mkInputs "b*" "" true true)
           (mkWorld (mkEditor "xx" "abba" "yy" []) DEFAULT_SETTINGS []))
      = Returned ui /\
    StronglySorted range_before (highlights ui) /\
    Forall (fun r => 2 <= from r /\ from r < to r /\ to r <= 2 + 4) (highlights ui).
Proof.
  apply (preview_ranges_ordered_inside_scope MiniRegExp.compile DEFAULT_SETTINGS
           (mkInputs "b*" "" true true)
           (mkWorld (mkEditor "xx" "abba" "yy" []) DEFAULT_SETTINGS [])
           (matcher (mini_RegExp "b*" "gm")) 8).
  - reflexivity.
  - discriminate.
  - reflexivity.
  - simpl. lia.
Defined.

Lemma renderEntries_spec (show : list PreviewItem) :
  forall i,
    List.length (renderEntries i show) = List.length show /\
    map entry_number (renderEntries i show) = seq (i + 1) (List.length show) /\
    map entry_offset (renderEntries i show) = map item_from show /\
    map entry_text (renderEntries i show) = map item_text show.
Proof.
  induction show as [|it rest IH]; intros i; simpl.
  - repeat split.
  - destruct (IH (S i)) as (H1 & H2 & H3 & H4).
    rewrite H1, H2, H3, H4. replace (S i + 1) with (S (i + 1)) by lia.
    repeat split.
Qed.

(** X2: the preview list is capped while the highlights and the count are
    not.  With [shown] the non-empty matches of the scan, the info row
    displays the number of [shown] and the highlight ranges are those of all
    of [shown]; the list has min(200, count) rows, numbered from 1, for the
    first ranges in order; the "more" row appears exactly when there are
    more than 200 of them and reports the number of rows left out. *)
Theorem preview_list_is_capped (CP : string -> string -> option Matcher)
    (st : RfrPluginSettings) (inp : ModalInputs) (w : World) (mt : Matcher) (fuel : nat) :
  regToggleComponent inp = true ->
  findInputComponent inp <> EmptyString ->
  CP (findInputComponent inp) (getRegexFlags st) = Some mt ->
  String.length (previewTarget inp w) + 2 <= fuel ->
  let shown := filter nonempty (scan (mkRegExp true mt) (previewTarget inp w)) in
  let count := List.length shown in
  exists ui,
    fst (updatePreview CP fuel (getRegexFlags st) inp w) = Returned ui /\
    previewInfo ui = InfoMatches count /\
    highlights ui = map (range_of (previewOffset inp w)) shown /\
    List.length (highlights ui) = count /\
    List.length (previewList ui) = Nat.min 200 count /\
    map entry_number (previewList ui) = seq 1 (Nat.min 200 count) /\
    map entry_offset (previewList ui) = map from (firstn 200 (highlights ui)) /\
    previewMore ui = (if 200 <? count then Some (count - 200) else None).
Proof.
  intros Hr Hp Hc Hf shown count.
  exists (preview_of (previewOffset inp w)
            (scan (mkRegExp true mt) (previewTarget inp w))).
  rewrite (updatePreview_compiled CP fuel _ inp w mt Hr Hp (has_g_getRegexFlags st) Hc Hf).
  split; [reflexivity|]. unfold preview_of. cbn [highlights previewInfo previewList previewMore].
  fold shown. cbv zeta. fold count. rewrite !length_map. fold count.
  destruct (renderEntries_spec
              (firstn limit (map (item_of (previewOffset inp w)) shown)) 0)
    as (H1 & H2 & H3 & _).
  rewrite H1, H2, H3, length_firstn, length_map. fold count. unfold limit.
  repeat split.
  rewrite !firstn_map, !map_map. reflexivity.
Qed.

Lemma preview_list_is_capped_witness :
  let shown := filter nonempty (scan (mini_RegExp "a" "gm") (replicate 201 "a")) in
  let count := List.length shown in
  exists ui,
    fst (updatePreview MiniRegExp.compile 203 "gm" (mkInputs "a" "" true false)
           (fresh_world (replicate 201 "a")))
      = Returned ui /\
    previewInfo ui = InfoMatches count /\
    highlights ui = map (range_of 0) shown /\
    List.length (highlights ui) = count /\
    List.length (previewList ui) = Nat.min 200 count /\
    map entry_number (previewList ui) = seq 1 (Nat.min 200 count) /\
    map entry_offset (previewList ui) = map from (firstn 200 (highlights ui)) /\
    previewMore ui = (if 200 <? count then Some (count - 200) else None).
Proof.
  apply (preview_list_is_capped MiniRegExp.compile DEFAULT_SETTINGS
           (mkInputs "a" "" true false) (fresh_world (replicate 201 "a"))
           (matcher (mini_RegExp "a" "gm")) 203).
  - reflexivity.
  - discriminate.
  - reflexivity.
  - vm_compute. repeat constructor.
Defined.

Example preview_of_201_matches :
  option_map (fun ui => (previewInfo ui, List.length (highlights ui),
                         List.length (previewList ui), previewMore ui))
    match fst (updatePreview MiniRegExp.compile 203 "gm" (mkInputs "a" "" true false)
                 (fresh_world (replicate 201 "a")))
    with Returned ui => Some ui | _ => None end
  = Some (InfoMatches 201, 201, 200, Some 1).
Proof. vm_compute. reflexivity. Qed.

(** ** [applyExpression] and "Replace All" in regex mode *)

Lemma applyExpression_compiled (CP : string -> string -> option Matcher)
    (e : SavedExpression) (w : World) (mt : Matcher) :
  CP (pattern e) (flags e) = Some mt ->
  let sel := selOnly (settings w) in
  let re := mkRegExp (requests_global e) mt in
  applyExpression CP e w =
    (Returned tt,
     match String_match (scopeText w) re with
     | Some rresult =>
         with_notice
           (NoticeApplied (name e) (List.length rresult)
              (if sel then InSelection else InDocument))
           (after_write sel
              (String_replace (scopeText w) re (processEscapes (settings w) (replace e)))
              (after_read sel w))
     | None =>
         with_notice (NoticeNoMatchFor (name e) (if sel then InSelection else InDocument))
           (after_read sel w)
     end).
Proof.
  intros Hc sel re. unfold applyExpression, scopeText, re, sel, requests_global.
  run. rewrite Hc. simpl.
  destruct (selOnly (settings w)) eqn:S; simpl;
    match goal with |- context [String_match ?t ?r] => destruct (String_match t r) end;
    unfold with_notice, after_write, after_read; simpl; rewrite ?S; reflexivity.
Qed.

Lemma document_log_call (c : EditorCall) (ed : Editor) :
  document (log_call c ed) = document ed.
Proof. reflexivity. Qed.

Lemma replaceAll_regex (CP : string -> string -> option Matcher) (regexFlags : string)
    (inp : ModalInputs) (w : World) (mt : Matcher) :
  regToggleComponent inp = true ->
  findInputComponent inp <> EmptyString ->
  CP (findInputComponent inp) regexFlags = Some mt ->
  let sel := selToggleComponent inp in
  let re := mkRegExp (has_char "g"%char regexFlags) mt in
  let text := replaceAllTarget inp w in
  let replaceString := processEscapes (settings w) (replaceWithInputComponent inp) in
  let w1 := if sel then after_read true w else after_read false (after_read true w) in
  let last := with_last_run (settings w) (findInputComponent inp) replaceString true sel in
  replaceAll CP regexFlags inp w =
    (Returned tt,
     match String_match text re with
     | Some rresult =>
         with_notice
           (NoticeMade (Z.of_nat (List.length rresult))
              (if sel then "selection" else "document")%string)
           (with_settings last (after_write sel (String_replace text re replaceString) w1))
     | None => with_notice NoticeNoMatch (with_settings last w1)
     end).
Proof.
  intros Hr Hp Hc sel re text replaceString w1 last.
  unfold replaceAll. rewrite Hr.
  destruct (String.length (findInputComponent inp) =? 0) eqn:Z.
  { apply Nat.eqb_eq in Z. destruct (findInputComponent inp); [congruence | discriminate]. }
  unfold text, replaceString, w1, last, re, sel, replaceAllTarget.
  run. rewrite Hc. simpl.
  destruct (selToggleComponent inp); simpl; rewrite ?document_log_call;
    match goal with |- context [String_match ?t ?r] => destruct (String_match t r) end;
    reflexivity.
Qed.

(** X3: the preview may show fewer matches than "Replace All" replaces.  On
    the same text and pattern the preview counts the non-empty matches of
    the scan, while "Replace All" in regex mode reports all of them (or "No
    match" when there is none); the first number never exceeds the
    second. *)
Theorem preview_count_le_replacements (CP : string -> string -> option Matcher)
    (st : RfrPluginSettings) (inp : ModalInputs) (w : World) (mt : Matcher) (fuel : nat) :
  regToggleComponent inp = true ->
  findInputComponent inp <> EmptyString ->
  CP (findInputComponent inp) (getRegexFlags st) = Some mt ->
  String.length (previewTarget inp w) + 2 <= fuel ->
  let ms := scan (mkRegExp true mt) (replaceAllTarget inp w) in
  exists ui,
    fst (updatePreview CP fuel (getRegexFlags st) inp w) = Returned ui /\
    previewInfo ui = InfoMatches (List.length (filter nonempty ms)) /\
    notices (snd (replaceAll CP (getRegexFlags st) inp w)) =
      notices w ++
      [match ms with
       | [] => NoticeNoMatch
       | _ => NoticeMade (Z.of_nat (List.length ms))
                (if selToggleComponent inp then "selection" else "document")%string
       end] /\
    List.length (filter nonempty ms) <= List.length ms.
Proof.
  intros Hr Hp Hc Hf ms.
  exists (preview_of (previewOffset inp w) ms).
  rewrite (updatePreview_compiled CP fuel _ inp w mt Hr Hp (has_g_getRegexFlags st) Hc Hf).
  rewrite (replaceAll_regex CP _ inp w mt Hr Hp Hc). rewrite has_g_getRegexFlags.
  cbv zeta.
  pose proof (String_match_global (mkRegExp true mt) (replaceAllTarget inp w) eq_refl) as HM.
  fold ms in HM.
  split; [reflexivity|]. split; [reflexivity|]. split.
  - destruct (String_match (replaceAllTarget inp w) (mkRegExp true mt)) as [rresult|].
    + destruct HM as [HL HN]. destruct ms as [|m ms']; [congruence|].
      simpl notices. rewrite HL. destruct (selToggleComponent inp); reflexivity.
    + rewrite HM. destruct (selToggleComponent inp); reflexivity.
  - apply filter_length_le.
Qed.

(** On ["ab"], [x*] previews as "Matches: 0" and replaces three times. *)
Lemma preview_count_le_replacements_witness :
  let inp := mkInputs "x*" "-" true false in
  let w := fresh_world "ab" in
  let ms := scan (mini_RegExp "x*" "gm") "ab" in
  exists ui,
    fst (updatePreview MiniRegExp.compile 4 "gm" inp w) = Returned ui /\
    previewInfo ui = InfoMatches (List.length (filter nonempty ms)) /\
    notices (snd (replaceAll MiniRegExp.compile "gm" inp w)) =
      [] ++
      [match ms with
       | [] => NoticeNoMatch
       | _ => NoticeMade (Z.of_nat (List.length ms)) "document"
       end] /\
    List.length (filter nonempty ms) <= List.length ms.
Proof.
  intros inp w ms.
  apply (preview_count_le_replacements MiniRegExp.compile DEFAULT_SETTINGS
           (mkInputs "x*" "-" true false) (fresh_world "ab")
           (matcher (mini_RegExp "x*" "gm")) 4).
  - reflexivity.
  - discriminate.
  - reflexivity.
  - simpl. lia.
Defined.

Example preview_says_0_replace_makes_3 :
  fst (updatePreview MiniRegExp.compile 4 "gm" (mkInputs "x*" "-" true false)
         (fresh_world "ab"))
    = Returned (mkUI (InfoMatches 0) [] [] None) /\
  snd (replaceAll MiniRegExp.compile "gm" (mkInputs "x*" "-" true false) (fresh_world "ab"))
    = mkWorld (mkEditor "" "" "-a-b-" [GetSelection; GetValue; SetValue "-a-b-"])
        (with_last_run DEFAULT_SETTINGS "x*" "-" true false)
        [NoticeMade 3 "document"].
Proof. split; vm_compute; reflexivity. Qed.

(** X4: a run of "Replace All" that is rejected (empty pattern) or fails
    (regex mode, pattern does not compile) changes nothing: the editor's
    text and the settings are what they were and no write was issued.  The
    empty pattern is answered with the 'Nothing to search for!' notice; the
    compile failure is thrown, with no notice. *)
Theorem replaceAll_rejected_changes_nothing (CP : string -> string -> option Matcher)
    (regexFlags : string) (inp : ModalInputs) (w : World) :
  findInputComponent inp = EmptyString \/
  (regToggleComponent inp = true /\ CP (findInputComponent inp) regexFlags = None) ->
  exists r w',
    replaceAll CP regexFlags inp w = (r, w') /\
    same_text w w' /\
    writes (editor w') = writes (editor w) /\
    settings w' = settings w /\
    (findInputComponent inp = EmptyString ->
     r = Returned tt /\ notices w' = notices w ++ [NoticeNothingToSearch]) /\
    (findInputComponent inp <> EmptyString ->
     r = Thrown (SyntaxError (findInputComponent inp) regexFlags) /\
     notices w' = notices w).
Proof.
  intros H.
  destruct (string_dec (findInputComponent inp) EmptyString) as [Hp|Hp].
  - exists (Returned tt), (with_notice NoticeNothingToSearch (after_read true w)).
    unfold replaceAll. rewrite Hp. run.
    split; [reflexivity|]. split; [apply same_text_after_read|].
    split; [apply (reads_after_read true w)|].
    repeat split; congruence.
  - destruct H as [H|[Hr Hc]]; [congruence|].
    exists (Thrown (SyntaxError (findInputComponent inp) regexFlags)), (after_read true w).
    unfold replaceAll. rewrite Hr.
    destruct (String.length (findInputComponent inp) =? 0) eqn:Z.
    { apply Nat.eqb_eq in Z. destruct (findInputComponent inp); [congruence | discriminate]. }
    run. rewrite Hc. simpl.
    split; [reflexivity|]. split; [apply same_text_after_read|].
    split; [apply (reads_after_read true w)|].
    repeat split; congruence.
Qed.

Lemma replaceAll_rejected_changes_nothing_witness :
  exists r w',
    replaceAll MiniRegExp.compile "gm" (mkInputs "(" "x" true false) (fresh_world "a(b")
      = (r, w') /\
    same_text (fresh_world "a(b") w' /\
    writes (editor w') = 0 /\
    settings w' = DEFAULT_SETTINGS /\
    ("("%string = EmptyString -> r = Returned tt /\ notices w' = [] ++ [NoticeNothingToSearch]) /\
    ("("%string <> EmptyString -> r = Thrown (SyntaxError "(" "gm") /\ notices w' = []).
Proof.
  apply (replaceAll_rejected_changes_nothing MiniRegExp.compile "gm"
           (mkInputs "(" "x" true false) (fresh_world "a(b")).
  right. split; reflexivity.
Defined.

(** X5: the dialog in regex mode and a saved expression with the same
    pattern, flags and replacement do the same to the text: under settings
    whose selection-only switch is the dialog's, "Replace All" and
    [applyExpression] leave the same text in the editor, and one returns
    exactly when the other does. *)
Theorem dialog_agrees_with_saved_expression (CP : string -> string -> option Matcher)
    (regexFlags n : string) (inp : ModalInputs) (w : World) :
  regToggleComponent inp = true ->
  findInputComponent inp <> EmptyString ->
  selOnly (settings w) = selToggleComponent inp ->
  let e := expression_of_inputs n regexFlags inp in
  editor_text (editor (snd (replaceAll CP regexFlags inp w))) =
    editor_text (editor (snd (applyExpression CP e w))) /\
  (fst (replaceAll CP regexFlags inp w) = Returned tt <->
   fst (applyExpression CP e w) = Returned tt).
Proof.
  intros Hr Hp Hs e.
  destruct (CP (findInputComponent inp) regexFlags) as [mt|] eqn:Hc.
  - rewrite (replaceAll_regex CP regexFlags inp w mt Hr Hp Hc).
    rewrite (applyExpression_compiled CP e w mt Hc).
    cbv zeta. unfold scopeText, replaceAllTarget, requests_global. rewrite Hs. simpl flags.
    split; [|tauto]. simpl replace. simpl fst. simpl snd.
    destruct (selToggleComponent inp);
      match goal with |- context [String_match ?t ?r] => destruct (String_match t r) end;
      reflexivity.
  - destruct (replaceAll_rejected_changes_nothing CP regexFlags inp w
                (or_intror (conj Hr Hc))) as (r & w' & HR & HT & _ & _ & _ & HE).
    destruct (HE Hp) as [-> _]. rewrite HR.
    assert (HA : applyExpression CP e w = (Thrown (SyntaxError (pattern e) (flags e)), w)).
    { unfold applyExpression. run. simpl in Hc |- *. rewrite Hc. reflexivity. }
    rewrite HA. simpl. destruct HT as (H1 & H2 & H3). unfold editor_text.
    rewrite H1, H2, H3. split; [reflexivity|]. split; discriminate.
Qed.

Lemma dialog_agrees_with_saved_expression_witness :
  let inp := mkInputs "b*" "-" true false in
  let e := expression_of_inputs "E" "gm" inp in
  editor_text (editor (snd (replaceAll MiniRegExp.compile "gm" inp (fresh_world "abba")))) =
    editor_text (editor (snd (applyExpression MiniRegExp.compile e (fresh_world "abba")))) /\
  (fst (replaceAll MiniRegExp.compile "gm" inp (fresh_world "abba")) = Returned tt <->
   fst (applyExpression MiniRegExp.compile e (fresh_world "abba")) = Returned tt).
Proof.
  intros inp e.
  apply (dialog_agrees_with_saved_expression MiniRegExp.compile "gm" "E"
           (mkInputs "b*" "-" true false) (fresh_world "abba")).
  - reflexivity.
  - discriminate.
  - reflexivity.
Defined.






(** ** More on escape sequences *)

Lemma expand_keeps_backslash (c r : ascii) (s : string) :
  starts_with c s = false ->
  expand c r (String BACKSLASH s) = String BACKSLASH (expand c r s).
Proof.
  intros H. cbn [expand]. rewrite Ascii.eqb_refl.
  destruct s as [|b s']; [reflexivity|]. simpl in H. rewrite H. reflexivity.
Qed.

Lemma starts_with_expand_false (c c' r' b : ascii) (s : string) :
  Ascii.eqb b c = false -> r' <> c ->
  starts_with c (expand c' r' (String b s)) = false.
Proof.
  intros Hb Hr.
  destruct (starts_with c (expand c' r' (String b s))) eqn:S; [|reflexivity].
  apply starts_with_expand in S. destruct S as [S|S]; [|contradiction].
  simpl in S. congruence.
Qed.

Lemma expand_commute (c r c' r' : ascii) :
  c <> c' -> c <> BACKSLASH -> c' <> BACKSLASH ->
  r <> BACKSLASH -> r <> c' -> r' <> BACKSLASH -> r' <> c ->
  forall n s, String.length s <= n ->
    expand c r (expand c' r' s) = expand c' r' (expand c r s).
Proof.
  intros Hcc Hc Hc' Hr Hrc' Hr' Hr'c.
  induction n as [|n IH]; intros s Hn.
  - destruct s; [reflexivity | simpl in Hn; lia].
  - destruct s as [|a s']; [reflexivity|]. simpl in Hn.
    destruct (Ascii.eqb a BACKSLASH) eqn:A.
    + apply Ascii.eqb_eq in A. subst a.
      destruct s' as [|b s'']; [reflexivity|]. simpl in Hn.
      destruct (Ascii.eqb b c) eqn:B; [|destruct (Ascii.eqb b c') eqn:B'].
      * apply Ascii.eqb_eq in B. subst b.
        assert (Ecc' : Ascii.eqb c c' = false) by (apply Ascii.eqb_neq; exact Hcc).
        rewrite (expand_keeps_backslash c' r' (String c s'')) by exact Ecc'.
        rewrite (expand_plain_char c' r' c s'' Hc).
        change (String BACKSLASH (String c ?x)) with (escape c +++ x).
        rewrite !expand_escape_here.
        rewrite (expand_plain_char c' r' r _ Hr).
        rewrite IH by lia. reflexivity.
      * apply Ascii.eqb_eq in B'. subst b.
        assert (Ec'c : Ascii.eqb c' c = false)
          by (apply Ascii.eqb_neq; intros E; apply Hcc; symmetry; exact E).
        rewrite (expand_keeps_backslash c r (String c' s'')) by exact Ec'c.
        rewrite (expand_plain_char c r c' s'' Hc').
        change (String BACKSLASH (String c' ?x)) with (escape c' +++ x).
        rewrite !expand_escape_here.
        rewrite (expand_plain_char c r r' _ Hr').
        rewrite IH by lia. reflexivity.
      * rewrite (expand_keeps_backslash c' r' (String b s'')) by exact B'.
        rewrite (expand_keeps_backslash c r (String b s'')) by exact B.
        rewrite expand_keeps_backslash
          by (apply starts_with_expand_false; assumption).
        rewrite (expand_keeps_backslash c' r')
          by (apply starts_with_expand_false; assumption).
        rewrite (IH (String b s'')) by (simpl; lia). reflexivity.
    + assert (Ha : a <> BACKSLASH) by (apply Ascii.eqb_neq; exact A).
      rewrite !(expand_plain_char _ _ a _ Ha). rewrite IH by lia. reflexivity.
Qed.

(** X8: the two escape replacements do not interact: replacing
    backslash-n first and backslash-t second gives the same string as the
    other order. *)
Theorem escape_replacements_commute (replaceString : string) :
  String_replace
    (String_replace replaceString re_backslash_n (String LF EmptyString))
    re_backslash_t (String TAB EmptyString)
  =
  String_replace
    (String_replace replaceString re_backslash_t (String TAB EmptyString))
    re_backslash_n (String LF EmptyString).
Proof.
  unfold re_backslash_n, re_backslash_t. rewrite !String_replace_backslash.
  symmetry.
  apply (expand_commute "n" LF "t" TAB) with (n := String.length replaceString);
    try (apply Ascii.eqb_neq; reflexivity).
  apply Nat.le_refl.
Qed.

Lemma has_escape_first_escape (c : ascii) (s : string) :
  has_escape c s = false -> first_escape c s = None.
Proof.
  induction s as [|a s IH]; intros H; [reflexivity|].
  cbn [has_escape] in H. apply orb_false_elim in H. destruct H as [H1 H2].
  cbn [first_escape]. rewrite H1, (IH H2). reflexivity.
Qed.

Lemma expand_fixed (c r : ascii) (s : string) :
  has_escape c s = false -> expand c r s = s.
Proof. intros H. apply expand_no_escape, has_escape_first_escape, H. Qed.

Lemma has_escape_after (c c' r' : ascii) (s : string) :
  r' <> BACKSLASH -> r' <> c ->
  c' = c \/ has_escape c s = false ->
  has_escape c (expand c' r' s) = false.
Proof.
  intros H1 H2 H.
  apply (has_escape_expand c c' r' H1 H2 (String.length s) s (Nat.le_refl _) H).
Qed.

(** X9: processing a replacement string leaves no sequence it would
    process again: with tab expansion on no backslash-t is left, and
    processing the result a second time changes nothing. *)
Theorem processEscapes_is_idempotent (st : RfrPluginSettings) (replaceString : string) :
  (processTab st = true -> has_escape "t" (processEscapes st replaceString) = false) /\
  processEscapes st (processEscapes st replaceString) = processEscapes st replaceString.
Proof.
  assert (Nn : forall t, has_escape "n" (expand "n" LF t) = false).
  { intros t. apply has_escape_after; [apply LF_not_backslash | | left; reflexivity].
    apply Ascii.eqb_neq. reflexivity. }
  assert (Tt : forall t, has_escape "t" (expand "t" TAB t) = false).
  { intros t. apply has_escape_after; [apply TAB_not_backslash | | left; reflexivity].
    apply Ascii.eqb_neq. reflexivity. }
  assert (Nt : forall t, has_escape "n" (expand "t" TAB (expand "n" LF t)) = false).
  { intros t. apply has_escape_after; [apply TAB_not_backslash | | right; apply Nn].
    apply Ascii.eqb_neq. reflexivity. }
  rewrite !processEscapes_expand. cbv zeta.
  destruct (processLineBreak st), (processTab st); split; try discriminate;
    try reflexivity; intros; rewrite ?Tt; try reflexivity.
  - rewrite (expand_fixed "n" LF _ (Nt _)), (expand_fixed "t" TAB _ (Tt _)). reflexivity.
  - rewrite (expand_fixed "n" LF _ (Nn _)). reflexivity.
  - rewrite (expand_fixed "t" TAB _ (Tt _)). reflexivity.
Qed.

(** ** "Replace All": what it stores, and literal mode without occurrence *)

Lemma replaceAll_literal (CP : string -> string -> option Matcher) (regexFlags : string)
    (inp : ModalInputs) (w : World) :
  regToggleComponent inp = false ->
  findInputComponent inp <> EmptyString ->
  let sel := selToggleComponent inp in
  let pieces := String_split (replaceAllTarget inp w) (findInputComponent inp) in
  let replaceString := processEscapes (settings w) (replaceWithInputComponent inp) in
  let w1 := if sel then after_read true w else after_read false (after_read true w) in
  let last := with_last_run (settings w) (findInputComponent inp) replaceString false sel in
  replaceAll CP regexFlags inp w =
    (Returned tt,
     with_notice (NoticeMade (Z.of_nat (List.length pieces) - 1) (literal_label inp))
       (with_settings last (after_write sel (Array_join pieces replaceString) w1))).
Proof.
  intros Hr Hp sel pieces replaceString w1 last.
  unfold replaceAll. rewrite Hr.
  destruct (String.length (findInputComponent inp) =? 0) eqn:Z.
  { apply Nat.eqb_eq in Z. destruct (findInputComponent inp); [congruence | discriminate]. }
  unfold pieces, replaceString, w1, last, sel, replaceAllTarget, literal_label.
  run. destruct (selToggleComponent inp); reflexivity.
Qed.

Lemma processEscapes_with_last_run (st : RfrPluginSettings) (f r : string) (u s : bool)
    (t : string) :
  processEscapes (with_last_run st f r u s) t = processEscapes st t.
Proof. reflexivity. Qed.

(** X10: a run of "Replace All" that returns with a non-empty pattern
    stores the pattern, the processed replacement string and the two
    switches of the dialog in the settings, and leaves the saved
    expressions, the groups and the other options alone.  The stored
    replacement is stable: processing it again under the new settings gives
    it back. *)
Theorem replaceAll_remembers_the_run (CP : string -> string -> option Matcher)
    (regexFlags : string) (inp : ModalInputs) (w : World) :
  findInputComponent inp <> EmptyString ->
  fst (replaceAll CP regexFlags inp w) = Returned tt ->
  let st' := settings (snd (replaceAll CP regexFlags inp w)) in
  st' = with_last_run (settings w) (findInputComponent inp)
          (processEscapes (settings w) (replaceWithInputComponent inp))
          (regToggleComponent inp) (selToggleComponent inp) /\
  savedExpressions st' = savedExpressions (settings w) /\
  savedGroups st' = savedGroups (settings w) /\
  processEscapes st' (replaceText st') = replaceText st'.
Proof.
  intros Hp Hret st'.
  assert (E : st' = with_last_run (settings w) (findInputComponent inp)
                      (processEscapes (settings w) (replaceWithInputComponent inp))
                      (regToggleComponent inp) (selToggleComponent inp)).
  { unfold st'. destruct (regToggleComponent inp) eqn:Hr.
    - destruct (CP (findInputComponent inp) regexFlags) as [mt|] eqn:Hc.
      + rewrite (replaceAll_regex CP regexFlags inp w mt Hr Hp Hc). cbv zeta.
        destruct (String_match _ _); reflexivity.
      + destruct (replaceAll_rejected_changes_nothing CP regexFlags inp w
                    (or_intror (conj Hr Hc))) as (r & w' & HR & _ & _ & _ & _ & HE).
        rewrite HR in Hret. destruct (HE Hp) as [-> _]. discriminate.
    - rewrite (replaceAll_literal CP regexFlags inp w Hr Hp). reflexivity. }
  split; [exact E|]. rewrite E. split; [reflexivity|]. split; [reflexivity|].
  rewrite processEscapes_with_last_run. cbn [replaceText with_last_run].
  apply processEscapes_is_idempotent.
Qed.

Lemma replaceAll_remembers_the_run_witness :
  let w := mkWorld (mkEditor "" "" "a b" [])
             (mkSettings "" "" true false false true true false [expression_A] []) [] in
  let inp := mkInputs " " (escape "n") false false in
  let st' := settings (snd (replaceAll MiniRegExp.compile "gm" inp w)) in
  st' = with_last_run (settings w) " " (processEscapes (settings w) (escape "n")) false false /\
  savedExpressions st' = [expression_A] /\
  savedGroups st' = [] /\
  processEscapes st' (replaceText st') = replaceText st'.
Proof.
  intros w inp.
  apply (replaceAll_remembers_the_run MiniRegExp.compile "gm" inp w).
  - discriminate.
  - reflexivity.
Defined.

Lemma split_go_absent (sep s : string) :
  occurs sep s = false ->
  forall cur, split_go sep s 0 cur = [cur +++ s].
Proof.
  induction s as [|c s IH]; intros H cur.
  - simpl. rewrite append_nil_r. reflexivity.
  - cbn [occurs] in H. apply orb_false_elim in H. destruct H as [H1 H2].
    cbn [split_go]. rewrite H1, (IH H2). rewrite append_assoc. reflexivity.
Qed.

(** X11: in literal mode, when the pattern occurs nowhere in the scope
    text, "Replace All" still writes, but what it writes is the text it
    read: the document is unchanged and the count reported is 0. *)
Theorem literal_mode_without_occurrence (CP : string -> string -> option Matcher)
    (regexFlags : string) (inp : ModalInputs) (w : World) :
  regToggleComponent inp = false ->
  findInputComponent inp <> EmptyString ->
  occurs (findInputComponent inp) (replaceAllTarget inp w) = false ->
  exists w',
    replaceAll CP regexFlags inp w = (Returned tt, w') /\
    document (editor w') = document (editor w) /\
    writes (editor w') = writes (editor w) + 1 /\
    notices w' = notices w ++ [NoticeMade 0 (literal_label inp)].
Proof.
  intros Hr Hp Ho.
  rewrite (replaceAll_literal CP regexFlags inp w Hr Hp). cbv zeta.
  eexists. split; [reflexivity|].
  assert (S : String_split (replaceAllTarget inp w) (findInputComponent inp)
              = [replaceAllTarget inp w]).
  { unfold String_split. destruct (findInputComponent inp) eqn:E; [congruence|].
    rewrite <- E in *. apply (split_go_absent _ _ Ho). }
  rewrite S. cbn [Array_join List.length]. unfold replaceAllTarget.
  unfold with_notice, with_settings, after_write, after_read, writes, document.
  destruct (selToggleComponent inp); simpl;
    rewrite ?filter_app, ?length_app; simpl.
  - rewrite append_assoc. repeat split. lia.
  - repeat split. lia.
Qed.

Lemma literal_mode_without_occurrence_witness :
  exists w',
    replaceAll MiniRegExp.compile "gm" (mkInputs "a.b" "X" false true)
      (mkWorld (mkEditor "a.b " "axb" " a.b" []) DEFAULT_SETTINGS [])
      = (Returned tt, w') /\
    document (editor w') = "a.b axb a.b"%string /\
    writes (editor w') = 0 + 1 /\
    notices w' = [] ++ [NoticeMade 0 "document"].
Proof.
  apply (literal_mode_without_occurrence MiniRegExp.compile "gm"
           (mkInputs "a.b" "X" false true)
           (mkWorld (mkEditor "a.b " "axb" " a.b" []) DEFAULT_SETTINGS [])).
  - reflexivity.
  - discriminate.
  - reflexivity.
Defined.

(** ** What the engine never does *)

Lemma batchLoop_never_out_of_fuel (CP : string -> string -> option Matcher)
    (exprs : list SavedExpression) :
  forall total text w, fst (batchLoop CP exprs total text w) <> OutOfFuel.
Proof.
  induction exprs as [|e rest IH]; intros total text w; simpl.
  - discriminate.
  - run. destruct (CP (pattern e) (flags e)) as [mt|]; simpl; [|discriminate].
    destruct (String_match text _); apply IH.
Qed.

(** X12: whatever the invocation and however it ends, the engine returns
    or throws (it has no loop that could run on), never touches the
    settings, reads the scope text at most once and writes at most once;
    and it writes only on a run that returns. *)
Theorem engine_frame (CP : string -> string -> option Matcher) (inv : Invocation)
    (w : World) :
  let r := fst (invoke CP inv w) in
  let w' := snd (invoke CP inv w) in
  (r = Returned tt \/ exists err, r = Thrown err) /\
  settings w' = settings w /\
  reads (editor w') <= reads (editor w) + 1 /\
  (writes (editor w') = writes (editor w) \/
   (writes (editor w') = writes (editor w) + 1 /\ r = Returned tt)).
Proof.
  assert (HB : forall exprs,
            let r := fst (applyBatch CP exprs w) in
            let w' := snd (applyBatch CP exprs w) in
            (r = Returned tt \/ exists err, r = Thrown err) /\
            settings w' = settings w /\
            reads (editor w') <= reads (editor w) + 1 /\
            (writes (editor w') = writes (editor w) \/
             (writes (editor w') = writes (editor w) + 1 /\ r = Returned tt))).
  { intros exprs. destruct exprs as [|e rest].
    - cbv zeta. unfold applyBatch. simpl. repeat split; auto. lia.
    - cbv zeta. rewrite (applyBatch_unfold CP (e :: rest) w) by discriminate.
      pose proof (batchLoop_world CP (e :: rest) 0 (scopeText w)
                    (after_read (selOnly (settings w)) w)) as Hw.
      pose proof (batchLoop_never_out_of_fuel CP (e :: rest) 0 (scopeText w)
                    (after_read (selOnly (settings w)) w)) as Hf.
      destruct (reads_after_read (selOnly (settings w)) w) as [R1 R2].
      destruct (batchLoop CP (e :: rest) 0 (scopeText w) _) as [[r| err|] w1];
        simpl in Hw, Hf; subst w1; [| |congruence].
      + destruct (writes_after_write (selOnly (settings w)) (snd r)
                    (after_read (selOnly (settings w)) w)) as [W1 W2].
        cbn [fst snd]. rewrite editor_with_notice.
        split; [left; reflexivity|]. split; [reflexivity|]. split; [lia|].
        right. split; [lia | reflexivity].
      + cbn [fst snd]. split; [right; eexists; reflexivity|].
        split; [reflexivity|]. split; [lia|]. left. exact R2. }
  destruct inv as [expr|exprs|group]; cbn [invoke].
  - destruct (CP (pattern expr) (flags expr)) as [mt|] eqn:Hc.
    + rewrite (applyExpression_compiled CP expr w mt Hc). cbv zeta. cbn [fst snd].
      destruct (reads_after_read (selOnly (settings w)) w) as [R1 R2].
      destruct (String_match (scopeText w) _) as [rresult|].
      * match goal with |- context [after_write ?b ?t ?x] =>
          destruct (writes_after_write b t x) as [W1 W2] end.
        rewrite editor_with_notice.
        split; [left; reflexivity|]. split; [reflexivity|]. split; [lia|].
        right. split; [lia | reflexivity].
      * rewrite editor_with_notice.
        split; [left; reflexivity|]. split; [reflexivity|]. split; [lia|].
        left. exact R2.
    + assert (HA : applyExpression CP expr w
                   = (Thrown (SyntaxError (pattern expr) (flags expr)), w)).
      { unfold applyExpression. run. rewrite Hc. reflexivity. }
      rewrite HA. cbn [fst snd].
      split; [right; eexists; reflexivity|]. split; [reflexivity|]. split; [lia|].
      left. reflexivity.
  - apply HB.
  - rewrite applyGroup_unfold.
    destruct (List.length (resolve (settings w) group) =? 0); [|apply HB].
    cbn [fst snd]. rewrite editor_with_notice.
    split; [left; reflexivity|]. split; [reflexivity|]. split; [lia|].
    left. reflexivity.
Qed.

(** ** The expression and group stores *)

Section Store.

Context {A : Type}.
Variable key : A -> string.

Lemma upsert_cons (x y : A) (l : list A) :
  upsert key x (y :: l) =
    if String.eqb (key y) (key x) then x :: l else y :: upsert key x l.
Proof.
  unfold upsert. simpl. destruct (String.eqb (key y) (key x)); [reflexivity|].
  destruct (findIndex _ l); reflexivity.
Qed.

Lemma upsert_keys (x : A) (l : list A) :
  map key (upsert key x l) =
    if existsb (fun e => String.eqb (key e) (key x)) l
    then map key l
    else map key l ++ [key x].
Proof.
  induction l as [|y l IH]; [reflexivity|].
  rewrite upsert_cons. simpl. destruct (String.eqb (key y) (key x)) eqn:E; simpl.
  - apply String.eqb_eq in E. rewrite E. reflexivity.
  - rewrite IH. destruct (existsb _ l); reflexivity.
Qed.

Lemma upsert_In (x : A) (l : list A) : In x (upsert key x l).
Proof.
  induction l as [|y l IH]; [left; reflexivity|].
  rewrite upsert_cons. destruct (String.eqb (key y) (key x)); simpl; auto.
Qed.

Lemma upsert_other (x e : A) (l : list A) :
  key e <> key x -> (In e (upsert key x l) <-> In e l).
Proof.
  intros H. induction l as [|y l IH].
  - simpl. split; [intros [<-|[]]; congruence | intros []].
  - rewrite upsert_cons. destruct (String.eqb (key y) (key x)) eqn:E; simpl.
    + apply String.eqb_eq in E. split; intros [<-|H']; auto; congruence.
    + rewrite IH. reflexivity.
Qed.

Lemma upsert_NoDup (x : A) (l : list A) :
  NoDup (map key l) -> NoDup (map key (upsert key x l)).
Proof.
  intros H. rewrite upsert_keys.
  destruct (existsb (fun e => String.eqb (key e) (key x)) l) eqn:E; [exact H|].
  apply NoDup_app; [exact H | repeat constructor; intros [] |].
  intros k Hk [<-|[]]. apply in_map_iff in Hk. destruct Hk as (e & He & Hin).
  assert (existsb (fun e => String.eqb (key e) (key x)) l = true).
  { apply existsb_exists. exists e. split; [exact Hin|]. apply String.eqb_eq. exact He. }
  congruence.
Qed.

Lemma upsert_unique (x e : A) (l : list A) :
  NoDup (map key l) -> In e (upsert key x l) -> key e = key x -> e = x.
Proof.
  induction l as [|y l IH]; intros Hn Hin Hk.
  - destruct Hin as [<-|[]]. reflexivity.
  - inversion Hn as [|? ? Hy Hn']; subst. rewrite upsert_cons in Hin.
    destruct (String.eqb (key y) (key x)) eqn:E.
    + apply String.eqb_eq in E. destruct Hin as [<-|Hin]; [reflexivity|].
      exfalso. apply Hy. rewrite E, <- Hk. apply in_map. exact Hin.
    + apply String.eqb_neq in E. destruct Hin as [<-|Hin]; [congruence|].
      apply IH; assumption.
Qed.


Lemma remove_upsert (x : A) (l : list A) :
  remove_key key (key x) (upsert key x l) = remove_key key (key x) l.
Proof.
  unfold remove_key. induction l as [|y l IH].
  - simpl. rewrite String.eqb_refl. reflexivity.
  - rewrite upsert_cons. destruct (String.eqb (key y) (key x)) eqn:E; simpl.
    + rewrite String.eqb_refl, E. reflexivity.
    + rewrite E. simpl. rewrite IH. reflexivity.
Qed.

Lemma upsert_upsert (x : A) (l : list A) :
  upsert key x (upsert key x l) = upsert key x l.
Proof.
  induction l as [|y l IH].
  - unfold upsert at 2. simpl. rewrite upsert_cons, String.eqb_refl. reflexivity.
  - rewrite (upsert_cons x y l). destruct (String.eqb (key y) (key x)) eqn:E.
    + rewrite upsert_cons, String.eqb_refl. reflexivity.
    + rewrite upsert_cons, E, IH. reflexivity.
Qed.

Lemma remove_key_In (k : string) (e : A) (l : list A) :
  In e (remove_key key k l) <-> In e l /\ key e <> k.
Proof.
  unfold remove_key. rewrite filter_In, negb_true_iff, String.eqb_neq. reflexivity.
Qed.

Lemma remove_key_keys (k : string) (l : list A) :
  map key (remove_key key k l) = filter (fun n => negb (String.eqb n k)) (map key l).
Proof.
  unfold remove_key. induction l as [|y l IH]; [reflexivity|]. simpl.
  destruct (String.eqb (key y) k); simpl; rewrite IH; reflexivity.
Qed.

Lemma remove_key_twice (k : string) (l : list A) :
  remove_key key k (remove_key key k l) = remove_key key k l.
Proof.
  unfold remove_key. induction l as [|y l IH]; [reflexivity|]. simpl.
  destruct (String.eqb (key y) k) eqn:E; simpl; [exact IH|]. rewrite E. simpl.
  rewrite IH. reflexivity.
Qed.

End Store.

Lemma saveOrUpdateExpression_upsert (expr : SavedExpression) (w : World) :
  saveOrUpdateExpression expr w =
    (Returned tt,
     with_notice (NoticeSavedExpression (name expr))
       (with_settings
          (with_expressions (settings w) (upsert name expr (savedExpressions (settings w))))
          w)).
Proof. reflexivity. Qed.

Lemma deleteExpressionByName_remove (n : string) (w : World) :
  deleteExpressionByName n w =
    (Returned tt,
     with_notice (NoticeDeletedExpression n)
       (with_settings
          (with_expressions (settings w) (remove_key name n (savedExpressions (settings w))))
          w)).
Proof. reflexivity. Qed.

(** X13: [saveOrUpdateExpression] is an upsert by name.  When the name is
    already stored the sequence of names is unchanged (the entry is replaced
    where it stands), otherwise the name is appended; the saved expression
    is in the store afterwards and expressions of other names are neither
    added nor lost.  If no name was stored twice, none is afterwards, and
    the saved expression is then the only one of its name.  Groups and
    editor are not touched. *)
Theorem saveOrUpdateExpression_is_an_upsert (expr : SavedExpression) (w : World) :
  let es := savedExpressions (settings w) in
  let w' := snd (saveOrUpdateExpression expr w) in
  let es' := savedExpressions (settings w') in
  names_of es' =
    (if existsb (fun e => String.eqb (name e) (name expr)) es
     then names_of es else names_of es ++ [name expr]) /\
  In expr es' /\
  (forall e, name e <> name expr -> (In e es' <-> In e es)) /\
  (NoDup (names_of es) ->
   NoDup (names_of es') /\ forall e, In e es' -> name e = name expr -> e = expr) /\
  savedGroups (settings w') = savedGroups (settings w) /\
  editor w' = editor w.
Proof.
  cbv zeta. rewrite saveOrUpdateExpression_upsert. cbn [snd]. simpl.
  split; [apply upsert_keys|]. split; [apply upsert_In|].
  split; [intros e He; apply upsert_other; exact He|].
  split; [|split; reflexivity].
  intros Hn. split; [apply upsert_NoDup; exact Hn|].
  intros e. apply upsert_unique. exact Hn.
Qed.

(** X14: [deleteExpressionByName] removes every expression of that name
    and nothing else, keeping the order of the others; deleting the same
    name again changes nothing more.  The groups are left as they are, so a
    group that named the expression still names it. *)
Theorem deleteExpressionByName_removes_the_name (n : string) (w : World) :
  let es := savedExpressions (settings w) in
  let w' := snd (deleteExpressionByName n w) in
  let es' := savedExpressions (settings w') in
  (forall e, In e es' <-> In e es /\ name e <> n) /\
  names_of es' = filter (fun k => negb (String.eqb k n)) (names_of es) /\
  savedExpressions (settings (snd (deleteExpressionByName n w'))) = es' /\
  savedGroups (settings w') = savedGroups (settings w) /\
  editor w' = editor w.
Proof.
  cbv zeta. rewrite !deleteExpressionByName_remove. cbn [snd]. simpl.
  split; [intros e; apply remove_key_In|].
  split; [apply remove_key_keys|].
  split; [apply remove_key_twice|]. split; reflexivity.
Qed.

(** X15: saving and deleting compose as expected: deleting a name right
    after an expression of that name was saved leaves the store as if it
    had only been deleted, and saving the same expression twice is saving
    it once. *)
Theorem save_then_delete_expression (expr : SavedExpression) (w : World) :
  savedExpressions
    (settings (snd (deleteExpressionByName (name expr)
                      (snd (saveOrUpdateExpression expr w)))))
  = savedExpressions (settings (snd (deleteExpressionByName (name expr) w))) /\
  savedExpressions
    (settings (snd (saveOrUpdateExpression expr (snd (saveOrUpdateExpression expr w)))))
  = savedExpressions (settings (snd (saveOrUpdateExpression expr w))).
Proof.
  rewrite !deleteExpressionByName_remove, !saveOrUpdateExpression_upsert. cbn [snd]. simpl.
  split; [apply remove_upsert | apply upsert_upsert].
Qed.

Lemma saveOrUpdateGroup_upsert (group : ExpressionGroup) (w : World) :
  saveOrUpdateGroup group w =
    (Returned tt,
     with_notice (NoticeSavedPreset (group_name group))
       (with_settings
          (with_groups (settings w) (upsert group_name group (savedGroups (settings w))))
          w)).
Proof. reflexivity. Qed.

Lemma deleteGroupByName_remove (n : string) (w : World) :
  deleteGroupByName n w =
    (Returned tt,
     with_notice (NoticeDeletedPreset n)
       (with_settings
          (with_groups (settings w) (remove_key group_name n (savedGroups (settings w))))
          w)).
Proof. reflexivity. Qed.

(** X16: the group store behaves like the expression store.
    [saveOrUpdateGroup] replaces the group of that name where it stands or
    appends it, and keeps names unique; [deleteGroupByName] removes exactly
    the groups of that name; deleting after saving is deleting.  Neither
    touches the saved expressions. *)
Theorem group_store_upsert_and_delete (group : ExpressionGroup) (n : string) (w : World) :
  let gs := savedGroups (settings w) in
  let saved := settings (snd (saveOrUpdateGroup group w)) in
  let deleted := settings (snd (deleteGroupByName n w)) in
  group_names_of (savedGroups saved) =
    (if existsb (fun g => String.eqb (group_name g) (group_name group)) gs
     then group_names_of gs else group_names_of gs ++ [group_name group]) /\
  In group (savedGroups saved) /\
  (NoDup (group_names_of gs) -> NoDup (group_names_of (savedGroups saved))) /\
  (forall g, In g (savedGroups deleted) <-> In g gs /\ group_name g <> n) /\
  savedGroups
    (settings (snd (deleteGroupByName (group_name group) (snd (saveOrUpdateGroup group w)))))
  = savedGroups (settings (snd (deleteGroupByName (group_name group) w))) /\
  savedExpressions saved = savedExpressions (settings w) /\
  savedExpressions deleted = savedExpressions (settings w).
Proof.
  cbv zeta. rewrite !deleteGroupByName_remove, !saveOrUpdateGroup_upsert. cbn [snd]. simpl.
  split; [apply upsert_keys|]. split; [apply upsert_In|].
  split; [apply upsert_NoDup|].
  split; [intros g; apply remove_key_In|].
  split; [apply remove_upsert|]. split; reflexivity.
Qed.

(** ** Suggestions *)

Lemma prefix_nil_l (s : string) : String.prefix EmptyString s = true.
Proof. destruct s; reflexivity. Qed.








Example suggestions_ignore_case :
  let st := with_expressions DEFAULT_SETTINGS
              [mkExpr "Title Case" "a" "gm" "b"; mkExpr "tidy" "c" "gm" "d";
               mkExpr "Other" "e" "gm" "f"] in
  map name (getSuggestions latin1_toLowerCase st "TI") = ["Title Case"; "tidy"]%string /\
  map name (getSuggestions latin1_toLowerCase st "tit") = ["Title Case"]%string /\
  map name (getSuggestions latin1_toLowerCase st "x") = [].
Proof. repeat split; vm_compute; reflexivity. Qed.

(** ** Saving an expression from the dialog *)


Example save_dialog_examples :
  let w := fresh_world "text" in
  saveExpressionClicked MiniRegExp.compile "  Tidy " "a*" "  " "b" w =
    (Returned Saved,
     mkWorld (editor w) (with_expressions DEFAULT_SETTINGS [mkExpr "Tidy" "a*" "gm" "b"])
       [NoticeSavedExpression "Tidy"]) /\
  saveExpressionClicked MiniRegExp.compile "   " "a*" "gm" "b" w = (Returned NameRequired, w) /\
  saveExpressionClicked MiniRegExp.compile "T" "(" "gm" "b" w
    = (Returned InvalidPatternOrFlags, w) /\
  saveExpressionClicked MiniRegExp.compile "T" "a" "gg" "b" w
    = (Returned InvalidPatternOrFlags, w).
Proof. repeat split; vm_compute; reflexivity. Qed.

(** ** Opening the dialog *)

(** X19: the state the dialog opens in.  With nothing selected the
    selection-only switch is off, whatever the settings say, and the find
    field holds the stored pattern.  The switch is on only when there is a
    selection, the settings ask for it and the find field was not
    prefilled.  When the find field is prefilled it holds the selection,
    which is then non-empty and free of line breaks, and the switch is
    off. *)
Theorem dialog_opening_state (st : RfrPluginSettings) (selection : string) :
  let inp := initialInputs st selection in
  (selection = EmptyString ->
   selToggleComponent inp = false /\ findInputComponent inp = findText st) /\
  (selToggleComponent inp = true ->
   selection <> EmptyString /\ selOnly st = true /\ findInputComponent inp = findText st) /\
  (prefillFind st = true -> selection <> EmptyString -> has_char LF selection = false ->
   findInputComponent inp = selection /\ selToggleComponent inp = false) /\
  (findInputComponent inp <> findText st ->
   findInputComponent inp = selection /\ selection <> EmptyString /\
   has_char LF selection = false /\ selToggleComponent inp = false) /\
  regToggleComponent inp = useRegEx st /\
  replaceWithInputComponent inp = replaceText st.
Proof.
  cbv zeta. unfold initialInputs. cbn [selToggleComponent findInputComponent
    regToggleComponent replaceWithInputComponent].
  assert (L : forall s, (String.length s =? 0) = true <-> s = EmptyString).
  { intros s. destruct s; simpl; split; congruence. }
  destruct (String.length selection =? 0) eqn:Z.
  - apply L in Z. subst selection. rewrite !andb_false_r.
    repeat split; try congruence; intros; congruence.
  - assert (Hs : selection <> EmptyString).
    { intros E. apply L in E. congruence. }
    destruct (prefillFind st), (has_char LF selection), (selOnly st); simpl;
      repeat split; try congruence; intros; congruence.
Qed.

(** ** More on batches and the preview *)

Lemma sequential_without_match (CP : string -> string -> option Matcher)
    (st : RfrPluginSettings) (text : string) (exprs : list SavedExpression) :
  Forall (fun e => exists mt, CP (pattern e) (flags e) = Some mt /\
                              scan (mkRegExp true mt) text = []) exprs ->
  sequential CP st text exprs = Some (text, 0).
Proof.
  induction 1 as [|e rest (mt & Hc & Hs) _ IH]; [reflexivity|].
  simpl. unfold applyOne. rewrite Hc. cbv zeta. rewrite Hs. simpl.
  rewrite IH. reflexivity.
Qed.

(** X20: a batch of global expressions none of which matches the scope
    text still reads once and writes once, but it writes the text it read:
    the document is unchanged and the notice reports 0 replacements. *)
Theorem applyBatch_without_match (CP : string -> string -> option Matcher)
    (exprs : list SavedExpression) (w : World) :
  exprs <> [] ->
  Forall (fun e => requests_global e = true) exprs ->
  Forall (fun e => exists mt, CP (pattern e) (flags e) = Some mt /\
                              scan (mkRegExp true mt) (scopeText w) = []) exprs ->
  applyBatch CP exprs w =
    (Returned tt, batch_done w (List.length exprs) (scopeText w) 0) /\
  document (editor (snd (applyBatch CP exprs w))) = document (editor w).
Proof.
  intros Hne Hg Hn.
  assert (E : applyBatch CP exprs w =
              (Returned tt, batch_done w (List.length exprs) (scopeText w) 0)).
  { rewrite (applyBatch_unfold CP exprs w Hne).
    pose proof (batchLoop_sequential CP exprs Hg 0 (scopeText w)
                  (after_read (selOnly (settings w)) w)) as H.
    simpl settings in H.
    rewrite (sequential_without_match CP (settings w) (scopeText w) exprs Hn) in H.
    rewrite H. reflexivity. }
  split; [exact E|]. rewrite E. unfold batch_done, scopeText, document. simpl.
  destruct (selOnly (settings w)); simpl; [|reflexivity].
  rewrite append_assoc. reflexivity.
Qed.

Lemma applyBatch_without_match_witness :
  applyBatch MiniRegExp.compile [expression_A; expression_B] (fresh_world "quux") =
    (Returned tt, batch_done (fresh_world "quux") 2 "quux" 0) /\
  document (editor (snd (applyBatch MiniRegExp.compile [expression_A; expression_B]
                           (fresh_world "quux")))) = "quux"%string.
Proof.
  apply (applyBatch_without_match MiniRegExp.compile [expression_A; expression_B]
           (fresh_world "quux")).
  - discriminate.
  - repeat constructor.
  - constructor; [|constructor; [|constructor]].
    + exists (matcher (mini_RegExp "foo" "gm")). split; reflexivity.
    + exists (matcher (mini_RegExp "bar" "gm")). split; reflexivity.
Defined.

(** X21: previewing a selection is previewing the selected text on its own
    and moving every range by the offset at which the selection starts: the
    count, the texts of the list rows and the "more" row are the same, the
    highlight ranges and row offsets are the shifted ones. *)
Theorem preview_of_selection_is_shifted (CP : string -> string -> option Matcher)
    (st : RfrPluginSettings) (pattern' : string) (w : World) (mt : Matcher) (fuel : nat) :
  pattern' <> EmptyString ->
  CP pattern' (getRegexFlags st) = Some mt ->
  String.length (selected (editor w)) + 2 <= fuel ->
  let offset := String.length (before (editor w)) in
  exists ui_sel ui_alone,
    fst (updatePreview CP fuel (getRegexFlags st) (mkInputs pattern' "" true true) w)
      = Returned ui_sel /\
    fst (updatePreview CP fuel (getRegexFlags st) (mkInputs pattern' "" true false)
           (fresh_world (selected (editor w))))
      = Returned ui_alone /\
    previewInfo ui_sel = previewInfo ui_alone /\
    highlights ui_sel = map (shift_range offset) (highlights ui_alone) /\
    map entry_text (previewList ui_sel) = map entry_text (previewList ui_alone) /\
    map entry_offset (previewList ui_sel) =
      map (fun n => offset + n) (map entry_offset (previewList ui_alone)) /\
    previewMore ui_sel = previewMore ui_alone.
Proof.
  intros Hp Hc Hf offset.
  eexists. eexists.
  rewrite (updatePreview_compiled CP fuel _ (mkInputs pattern' "" true true) w mt
             eq_refl Hp (has_g_getRegexFlags st) Hc Hf).
  rewrite (updatePreview_compiled CP fuel _ (mkInputs pattern' "" true false)
             (fresh_world (selected (editor w))) mt
             eq_refl Hp (has_g_getRegexFlags st) Hc Hf).
  split; [reflexivity|]. split; [reflexivity|].
  unfold preview_of, previewTarget, previewOffset. cbn [selToggleComponent].
  change (document (editor (fresh_world (selected (editor w))))) with (selected (editor w)).
  set (shown := filter nonempty (scan (mkRegExp true mt) (selected (editor w)))).
  cbn [previewInfo highlights previewList previewMore]. fold offset.
  repeat split.
  - rewrite map_map. apply map_ext. intros m. reflexivity.
  - destruct (renderEntries_spec (firstn limit (map (item_of offset) shown)) 0)
      as (_ & _ & _ & H1).
    destruct (renderEntries_spec (firstn limit (map (item_of 0) shown)) 0)
      as (_ & _ & _ & H2).
    rewrite H1, H2, !firstn_map, !map_map. reflexivity.
  - destruct (renderEntries_spec (firstn limit (map (item_of offset) shown)) 0)
      as (_ & _ & H1 & _).
    destruct (renderEntries_spec (firstn limit (map (item_of 0) shown)) 0)
      as (_ & _ & H2 & _).
    rewrite H1, H2, !firstn_map, !map_map. reflexivity.
Qed.

Lemma preview_of_selection_is_shifted_witness :
  let w := mkWorld (mkEditor "xx" "abba" "yy" []) DEFAULT_SETTINGS [] in
  exists ui_sel ui_alone,
    fst (updatePreview MiniRegExp.compile 6 "gm" (mkInputs "b*" "" true true) w)
      = Returned ui_sel /\
    fst (updatePreview MiniRegExp.compile 6 "gm" (mkInputs "b*" "" true false)
           (fresh_world "abba"))
      = Returned ui_alone /\
    previewInfo ui_sel = previewInfo ui_alone /\
    highlights ui_sel = map (shift_range 2) (highlights ui_alone) /\
    map entry_text (previewList ui_sel) = map entry_text (previewList ui_alone) /\
    map entry_offset (previewList ui_sel) =
      map (fun n => 2 + n) (map entry_offset (previewList ui_alone)) /\
    previewMore ui_sel = previewMore ui_alone.
Proof.
  intros w.
  apply (preview_of_selection_is_shifted MiniRegExp.compile DEFAULT_SETTINGS "b*" w
           (matcher (mini_RegExp "b*" "gm")) 6).
  - discriminate.
  - reflexivity.
  - simpl. lia.
Defined.
